(** * A shallow embedding of [AbstractJSONRPC] (src/src/AbstractJSONRPC.ts)

    The engine is modelled as an explicit state record threaded through its
    methods.  JS objects used as dictionaries ([responder], [handlers],
    [listeners]) are stdpp [gmap]s of their own properties, read through
    [js_lookup], which falls back to the properties every plain object
    inherits from [Object.prototype].  Exceptions are the [Thrown] case of
    [exn_or]. *)

From Stdlib Require Import ZArith NArith Lia Ascii String.
From stdpp Require Import base gmap list strings.

Open Scope string_scope.
Set Warnings "-register-all".

(* ------------------------------------------------------------------ *)
(** ** Decimal rendering of non-negative integers (JS [`${n}`]) *)

Definition digit (d : N) : ascii := ascii_of_N (48 + d).

(** [dec_fuel f n] renders [n] in base ten, most significant digit first;
    [f] bounds the number of digits. *)
Fixpoint dec_fuel (f : nat) (n : N) : string :=
  match f with
  | O => ""
  | S f' =>
      if (n <? 10)%N then String (digit n) ""
      else dec_fuel f' (n / 10) ++ String (digit (n mod 10)) ""
  end.

(** [n < 2 ^ size n <= 10 ^ size n], so [S (size n)] digits always suffice. *)
Definition dec (n : N) : string := dec_fuel (S (N.to_nat (N.size n))) n.

(* ------------------------------------------------------------------ *)
(** ** Id allocation ([getId]) *)

Definition MAX_SAFE_INTEGER : N := 9007199254740991.

(** [getId]: [this.uid = (this.uid + 1) % Number.MAX_SAFE_INTEGER], then the
    new counter and [Date.now()] rendered and concatenated.  Returns the new
    counter and the id. *)
Definition getId (uid now : N) : N * string :=
  let uid' := ((uid + 1) mod MAX_SAFE_INTEGER)%N in
  (uid', dec uid' ++ dec now).

(** The counter after [k] calls of [getId] on a fresh engine ([uid = 0]). *)
Definition uid_after (k : N) : N :=
  N.iter k (fun u => fst (getId u 0)) 0%N.

(** The id returned by the [k]-th call of [getId] (counting from 1) on a
    fresh engine, when [Date.now()] reads [clock k] at that call. *)
Definition kth_id (clock : N -> N) (k : N) : string :=
  snd (getId (uid_after (N.pred k)) (clock k)).

(* ------------------------------------------------------------------ *)
(** ** JS values, exceptions and property access *)

(** JSON-like JS values.  Numbers are integers; [JBigInt] stands for a value
    that [JSON.stringify] rejects. *)
Inductive jsval :=
  | JUndef
  | JNull
  | JBool (b : bool)
  | JNum (z : Z)
  | JStr (s : string)
  | JArr (l : list jsval)
  | JObj (fields : list (string * jsval))
  | JBigInt (z : Z).

Inductive exn :=
  | TypeError
  | SyntaxError
  | RegisterConflict (msg : string).

(** A computation that returns normally or throws. *)
Inductive exn_or (A : Type) :=
  | Ret (a : A)
  | Thrown (e : exn).
Arguments Ret {A} a.
Arguments Thrown {A} e.

Definition exn_bind {A B} (m : exn_or A) (k : A -> exn_or B) : exn_or B :=
  match m with Ret a => k a | Thrown e => Thrown e end.

Notation "'let*' x ':=' m 'in' k" := (exn_bind m (fun x => k))
  (at level 200, x name, m at level 100, k at level 200).

Definition truthy (v : jsval) : bool :=
  match v with
  | JUndef | JNull => false
  | JBool b => b
  | JNum z | JBigInt z => negb (z =? 0)%Z
  | JStr s => negb (String.eqb s "")
  | JArr _ | JObj _ => true
  end.

Definition is_nullish (v : jsval) : bool :=
  match v with JUndef | JNull => true | _ => false end.

(** Field lookup; of duplicated keys the last one wins, as with [JSON.parse]. *)
Fixpoint assoc_get (fs : list (string * jsval)) (k : string) : option jsval :=
  match fs with
  | [] => None
  | (k', v) :: fs' =>
      match assoc_get fs' k with
      | Some w => Some w
      | None => if String.eqb k k' then Some v else None
      end
  end.

(** [v.k] (and destructuring [const {k} = v]): throws on [null]/[undefined];
    none of the keys the engine reads exists on primitives or arrays. *)
Definition get_prop (v : jsval) (k : string) : exn_or jsval :=
  match v with
  | JUndef | JNull => Thrown TypeError
  | JObj fs => Ret (match assoc_get fs k with Some w => w | None => JUndef end)
  | _ => Ret JUndef
  end.

(** [k in v]: throws when [v] is not an object. *)
Definition has_prop (v : jsval) (k : string) : exn_or bool :=
  match v with
  | JObj fs => Ret (match assoc_get fs k with Some _ => true | None => false end)
  | JArr _ => Ret false
  | _ => Thrown TypeError
  end.

Definition num_to_string (z : Z) : string :=
  match z with
  | Zneg p => "-" ++ dec (Npos p)
  | _ => dec (Z.to_N z)
  end.

(** [ToString] / [ToPropertyKey]. *)
Fixpoint to_key (v : jsval) : string :=
  match v with
  | JUndef => "undefined"
  | JNull => "null"
  | JBool b => if b then "true" else "false"
  | JNum z | JBigInt z => num_to_string z
  | JStr s => s
  | JObj _ => "[object Object]"
  | JArr l =>
      (fix join (l : list jsval) : string :=
         match l with
         | [] => ""
         | x :: r =>
             let sx := match x with JUndef | JNull => "" | _ => to_key x end in
             match r with [] => sx | _ => sx ++ "," ++ join r end
         end) l
  end.

(* ------------------------------------------------------------------ *)
(** ** [JSON.stringify] *)

Definition quote_char : ascii := ascii_of_N 34.
Definition backslash : ascii := ascii_of_N 92.

Definition hex_digit (n : N) : ascii :=
  if (n <? 10)%N then ascii_of_N (48 + n) else ascii_of_N (87 + n).

Definition escape_char (c : ascii) : string :=
  let n := N_of_ascii c in
  if (n =? 34)%N then String backslash (String quote_char "")
  else if (n =? 92)%N then String backslash (String backslash "")
  else if (n =? 8)%N then String backslash "b"
  else if (n =? 12)%N then String backslash "f"
  else if (n =? 10)%N then String backslash "n"
  else if (n =? 13)%N then String backslash "r"
  else if (n =? 9)%N then String backslash "t"
  else if (n <? 32)%N then
    String backslash ("u00" ++ String (hex_digit (n / 16)) (String (hex_digit (n mod 16)) ""))
  else String c "".

Fixpoint escape (s : string) : string :=
  match s with
  | EmptyString => ""
  | String c s' => escape_char c ++ escape s'
  end.

Definition quote_string (s : string) : string :=
  String quote_char (escape s ++ String quote_char "").

(** The result of [JSON.stringify]: a string, [undefined], or a thrown
    [TypeError]. *)
Inductive str_result :=
  | SStr (s : string)
  | SUndef
  | SErr.

Fixpoint JSON_stringify (v : jsval) : str_result :=
  match v with
  | JUndef => SUndef
  | JNull => SStr "null"
  | JBool b => SStr (if b then "true" else "false")
  | JNum z => SStr (num_to_string z)
  | JStr s => SStr (quote_string s)
  | JBigInt _ => SErr
  | JArr l =>
      match (fix items (l : list jsval) : option (list string) :=
               match l with
               | [] => Some []
               | x :: r =>
                   match JSON_stringify x, items r with
                   | SErr, _ | _, None => None
                   | SStr s, Some ss => Some (s :: ss)
                   | SUndef, Some ss => Some ("null" :: ss)
                   end
               end) l with
      | Some ss => SStr ("[" ++ String.concat "," ss ++ "]")
      | None => SErr
      end
  | JObj fs =>
      match (fix members (fs : list (string * jsval)) : option (list string) :=
               match fs with
               | [] => Some []
               | (k, x) :: r =>
                   match JSON_stringify x, members r with
                   | SErr, _ | _, None => None
                   | SStr s, Some ss => Some ((quote_string k ++ ":" ++ s) :: ss)
                   | SUndef, Some ss => Some ss
                   end
               end) fs with
      | Some ss => SStr ("{" ++ String.concat "," ss ++ "}")
      | None => SErr
      end
  end.

(* ------------------------------------------------------------------ *)
(** ** Constants the engine imports from ./constants and ./type *)

(** Modelled from the spec: the channel names of ./constants are not under
    src/; the spec only calls them opaque channels, so they are two distinct
    names here. *)
Definition RPC_SEND_CHANNEL : string := "RPC_SEND_CHANNEL".
Definition RPC_RECEIVE_CHANNEL : string := "RPC_RECEIVE_CHANNEL".

(** Modelled from the spec: [DEFAULT_TIMEOUT] of ./constants is not under
    src/; the spec says only that a default applies when the timeout is
    omitted.  The value is the one the doc comment of [callHandler] gives
    (300000). *)
Definition DEFAULT_TIMEOUT_MS : Z := 300000.

(** Modelled from the spec: the enum [JSONRPCErrorCode] of ./type is not
    under src/; the spec names its members [NotFound], [Timeout],
    [TargetReleased], [UnKnown] and keeps positive codes for applications,
    so the members are distinct non-positive numbers here. *)
Inductive JSONRPCErrorCode := NotFound | Timeout | TargetReleased | UnKnown.

Definition error_code_num (c : JSONRPCErrorCode) : Z :=
  match c with
  | NotFound => 0
  | Timeout => -1
  | TargetReleased => -2
  | UnKnown => -3
  end.

(* ------------------------------------------------------------------ *)
(** ** Targets and sendables *)

(** A target is a webContents id or a BrowserWindow/WebContents object
    (comment of [send]); objects are compared by reference. *)
Inductive target :=
  | TId (id : Z)
  | TObj (ref : N).

Definition target_truthy (t : target) : bool :=
  match t with TId z => negb (z =? 0)%Z | TObj _ => true end.

Definition target_to_string (t : target) : string :=
  match t with TId z => num_to_string z | TObj _ => "[object Object]" end.

(** A sendable, as far as the engine looks at it: its [id].  Its [send] is
    the engine's transport log [outbox]. *)
Record Sendable := mkSendable { sendable_id : Z }.

(** What the subclass's [getSendable] does for a target. *)
Inductive resolution :=
  | Resolved (s : Sendable)
  | Released
  | ResolveThrows.

Definition Resolver := target -> resolution.

(** [getSender]: a throwing [getSendable] counts as unresolved (its warning
    is not modelled). *)
Definition getSender (gs : Resolver) (t : target) : option Sendable :=
  match gs t with Resolved s => Some s | _ => None end.

Definition isTargetEqual (gs : Resolver) (a b : option target) : bool :=
  match a, b with
  | None, None => true
  | None, Some _ | Some _, None => false
  | Some a, Some b =>
      match getSender gs a, getSender gs b with
      | Some sa, Some sb => Z.eqb (sendable_id sa) (sendable_id sb)
      | _, _ => false
      end
  end.

Definition isSenderMatchTarget (gs : Resolver) (a : Sendable) (t : option target) : bool :=
  match t with
  | None => true
  | Some t =>
      match getSender gs t with
      | Some s => Z.eqb (sendable_id s) (sendable_id a)
      | None => false
      end
  end.

(* ------------------------------------------------------------------ *)
(** ** Errors and call outcomes *)

(** The stack captured by [new Error().stack] at construction; opaque. *)
Definition local_stack : jsval := JStr "Error (local)".

Record JSONRPCError := mkJSONRPCError {
  e_code : jsval;
  e_message : string;
  e_data : jsval;
  e_stack : jsval;
  e_methodName : jsval;
  e_args : jsval
}.

Definition newJSONRPCError (code : jsval) (message : string) (data : jsval) : JSONRPCError :=
  mkJSONRPCError code message data local_stack JUndef JUndef.

(** [JSONRPCError.recoverFromResponse]: [err] is [res.error]. *)
Definition recoverFromResponse (err : jsval) (name : string) (args : jsval)
  : exn_or JSONRPCError :=
  let* args_s := match JSON_stringify args with
                 | SStr s => Ret s
                 | SUndef => Ret "undefined"
                 | SErr => Thrown TypeError
                 end in
  let* msg := get_prop err "message" in
  let errorMessage :=
    "[" ++ name ++ "(" ++ args_s ++ ")]: " ++ (if truthy msg then to_key msg else "") in
  let* code := get_prop err "code" in
  let* data := get_prop err "data" in
  let* inner := if truthy data then get_prop data "data" else Ret data in
  let* stack := if truthy data then get_prop data "stack" else Ret JUndef in
  Ret (mkJSONRPCError code errorMessage inner
         (if truthy stack then stack else local_stack) (JStr name) args).

(** What the caller's callback (the promise of [callHandler]) receives. *)
Inductive outcome :=
  | OResult (v : jsval)
  | OError (e : JSONRPCError).

(* ------------------------------------------------------------------ *)
(** ** Engine state *)

(** [this.responder[id]]: the wrapped callback is the call cell [rsp_call]. *)
Record Responder := mkResponder {
  rsp_call : nat;
  rsp_name : string;
  rsp_args : jsval
}.

Record HandlerEntry := mkHandlerEntry {
  h_target : option target;
  h_callback : N
}.

Record ListenerEntry := mkListenerEntry {
  l_target : option target;
  l_callback : N
}.

(** The closure state of one [send] with a callback: its id and method, the
    closure variables [resolved] and [timer] (armed or not), and every value
    the caller's callback has been invoked with, in order. *)
Record Call := mkCall {
  c_id : string;
  c_method : string;
  c_resolved : bool;
  c_timer : bool;
  c_outcomes : list outcome
}.

Definition QueueEntry := (string * Sendable * jsval)%type.

Record Engine := mkEngine {
  uid : N;
  queueTick : N;
  scheduleQueue : list (Z * list QueueEntry);
  responder : gmap string Responder;
  handlers : gmap string (list HandlerEntry);
  listeners : gmap string (list ListenerEntry);
  calls : list Call;
  outbox : list (Z * string * option string);
  console : list string
}.

Definition initial_engine : Engine :=
  mkEngine 0 0 [] ∅ ∅ ∅ [] [] [].

Definition set_uid (u : N) (st : Engine) : Engine :=
  mkEngine u (queueTick st) (scheduleQueue st) (responder st) (handlers st)
    (listeners st) (calls st) (outbox st) (console st).
Definition set_queueTick (t : N) (st : Engine) : Engine :=
  mkEngine (uid st) t (scheduleQueue st) (responder st) (handlers st)
    (listeners st) (calls st) (outbox st) (console st).
Definition set_scheduleQueue q (st : Engine) : Engine :=
  mkEngine (uid st) (queueTick st) q (responder st) (handlers st)
    (listeners st) (calls st) (outbox st) (console st).
Definition set_responder r (st : Engine) : Engine :=
  mkEngine (uid st) (queueTick st) (scheduleQueue st) r (handlers st)
    (listeners st) (calls st) (outbox st) (console st).
Definition set_handlers h (st : Engine) : Engine :=
  mkEngine (uid st) (queueTick st) (scheduleQueue st) (responder st) h
    (listeners st) (calls st) (outbox st) (console st).
Definition set_listeners l (st : Engine) : Engine :=
  mkEngine (uid st) (queueTick st) (scheduleQueue st) (responder st) (handlers st)
    l (calls st) (outbox st) (console st).
Definition set_calls cs (st : Engine) : Engine :=
  mkEngine (uid st) (queueTick st) (scheduleQueue st) (responder st) (handlers st)
    (listeners st) cs (outbox st) (console st).
Definition set_outbox o (st : Engine) : Engine :=
  mkEngine (uid st) (queueTick st) (scheduleQueue st) (responder st) (handlers st)
    (listeners st) (calls st) o (console st).
Definition log (msg : string) (st : Engine) : Engine :=
  mkEngine (uid st) (queueTick st) (scheduleQueue st) (responder st) (handlers st)
    (listeners st) (calls st) (outbox st) ((console st ++ [msg])%list).

(** Reading [obj[k]] on a plain object used as a dictionary: an own
    property, a property inherited from [Object.prototype] (a function, or
    [Object.prototype] itself for [__proto__]: not null, not an array, with
    none of the methods the engine calls), or [undefined]. *)
Definition object_prototype_keys : list string :=
  ["constructor"; "__defineGetter__"; "__defineSetter__"; "hasOwnProperty";
   "__lookupGetter__"; "__lookupSetter__"; "isPrototypeOf";
   "propertyIsEnumerable"; "toString"; "valueOf"; "__proto__";
   "toLocaleString"].

Inductive prop (A : Type) :=
  | Own (a : A)
  | Inherited
  | Absent.
Arguments Own {A} a.
Arguments Inherited {A}.
Arguments Absent {A}.

Definition js_lookup {A} (m : gmap string A) (k : string) : prop A :=
  match m !! k with
  | Some a => Own a
  | None => if existsb (String.eqb k) object_prototype_keys then Inherited else Absent
  end.

(* ------------------------------------------------------------------ *)
(** ** Listener and handler registries *)

Fixpoint findIndex {A} (p : A -> bool) (l : list A) : option nat :=
  match l with
  | [] => None
  | x :: r =>
      if p x then Some 0%nat
      else match findIndex p r with Some i => Some (S i) | None => None end
  end.

(** [arr.splice(i, 1)]. *)
Fixpoint splice1 {A} (i : nat) (l : list A) : list A :=
  match i, l with
  | _, [] => []
  | O, _ :: r => r
  | S i', x :: r => x :: splice1 i' r
  end.

(** [on]: the returned disposer is not modelled. *)
Definition on (st : Engine) (method : string) (callback : N) (t : option target)
  : exn_or Engine :=
  let e := mkListenerEntry t callback in
  match js_lookup (listeners st) method with
  | Own l => Ret (set_listeners (<[method := (l ++ [e])%list]> (listeners st)) st)
  | Inherited => Thrown TypeError      (* [.push] is not a function *)
  | Absent => Ret (set_listeners (<[method := [e]]> (listeners st)) st)
  end.

Definition off (gs : Resolver) (st : Engine) (method : string) (callback : N)
  (t : option target) : exn_or (Engine * bool) :=
  match js_lookup (listeners st) method with
  | Absent => Ret (st, false)
  | Inherited => Thrown TypeError      (* [.findIndex] is not a function *)
  | Own l =>
      match findIndex (fun i => N.eqb (l_callback i) callback
                                && isTargetEqual gs (l_target i) t) l with
      | Some idx => Ret (set_listeners (<[method := splice1 idx l]> (listeners st)) st, true)
      | None => Ret (st, false)
      end
  end.

(** [removeAllListener]: [for (const method in this.listeners)] visits the
    own keys; a list is replaced only when the filter dropped something. *)
Definition removeAllListener (gs : Resolver) (st : Engine) (t : option target) : Engine :=
  match t with
  | None => set_listeners ∅ st
  | Some _ =>
      set_listeners
        ((fun l =>
            let kept := filter (fun e => negb (isTargetEqual gs t (l_target e))) l in
            if Nat.eqb (length l) (length kept) then l else kept) <$> listeners st) st
  end.

(** [registerHandler]: the two conflict checks, then the insertion.  The
    conflict messages are those of the source (in Chinese there, in English
    here); the disposer is not modelled. *)
Definition registerHandler (gs : Resolver) (st : Engine) (method : string)
  (handler : N) (t : option target) : exn_or Engine :=
  let cur := js_lookup (handlers st) method in
  let* _ :=
    match t with
    | None =>
        match cur with
        | Absent => Ret tt
        | Inherited => Thrown TypeError      (* [.some] is not a function *)
        | Own l =>
            if existsb (fun i => match h_target i with None => true | Some _ => false end) l
            then Thrown (RegisterConflict
                           ("[JSONRPC] registerHandler global " ++ method ++ " already exists"))
            else Ret tt
        end
    | Some _ => Ret tt
    end in
  let* _ :=
    match t with
    | Some tv =>
        if target_truthy tv then
          match cur with
          | Absent => Ret tt
          | Inherited => Thrown TypeError
          | Own l =>
              if existsb (fun i => isTargetEqual gs t (h_target i)) l
              then Thrown (RegisterConflict
                             ("[JSONRPC] registerHandler(" ++ target_to_string tv ++ ") "
                              ++ method ++ " already exists"))
              else Ret tt
          end
        else Ret tt
    | None => Ret tt
    end in
  let e := mkHandlerEntry t handler in
  match cur with
  | Own l => Ret (set_handlers (<[method := (l ++ [e])%list]> (handlers st)) st)
  | Inherited => Thrown TypeError        (* [.push] is not a function *)
  | Absent => Ret (set_handlers (<[method := [e]]> (handlers st)) st)
  end.

Definition unregisterHandler (gs : Resolver) (st : Engine) (method : string)
  (t : option target) : exn_or (Engine * bool) :=
  match js_lookup (handlers st) method with
  | Absent => Ret (st, false)
  | Inherited => Thrown TypeError
  | Own l =>
      match findIndex (fun i => isTargetEqual gs (h_target i) t) l with
      | Some idx => Ret (set_handlers (<[method := splice1 idx l]> (handlers st)) st, true)
      | None => Ret (st, false)
      end
  end.

(* ------------------------------------------------------------------ *)
(** ** Outbound path *)

(** [beforeSend]: serialisation failures are caught and logged.  The
    transport's [send] itself is taken not to throw. *)
Definition beforeSend (s : Sendable) (channel : string) (payload : jsval) (st : Engine)
  : Engine :=
  match JSON_stringify payload with
  | SStr str => set_outbox ((outbox st ++ [(sendable_id s, channel, Some str)])%list) st
  | SUndef => set_outbox ((outbox st ++ [(sendable_id s, channel, None)])%list) st
  | SErr => log "[JSONRPC] failed to serialize payload" st
  end.

(** Modelled from the spec: [isEvent] of ./utils is not under src/; the
    spec: envelopes carrying an id are requests or responses, an Event has
    no id. *)
Definition isEvent (payload : jsval) : bool :=
  match payload with
  | JObj fs =>
      match assoc_get fs "id" with
      | None | Some JUndef | Some JNull => true
      | Some _ => false
      end
  | _ => false
  end.

(** [for (const id in queue)] visits array-index keys in ascending order,
    then the other keys in insertion order.  [sq_push] keeps that order. *)
Definition is_array_index (z : Z) : bool := (0 <=? z)%Z && (z <? 4294967295)%Z.

Fixpoint sq_push (k : Z) (e : QueueEntry) (q : list (Z * list QueueEntry))
  : list (Z * list QueueEntry) :=
  match q with
  | [] => [(k, [e])]
  | (k', es) :: q' =>
      if Z.eqb k k' then (k', (es ++ [e])%list) :: q'
      else if is_array_index k && (negb (is_array_index k') || (k <? k')%Z)
      then (k, [e]) :: q
      else (k', es) :: sq_push k e q'
  end.

(** [scheduleRequest]; [queueTick > 0] means a [flushQueue] is scheduled. *)
Definition scheduleRequest (channel : string) (s : Sendable) (payload : jsval) (st : Engine)
  : Engine :=
  if isEvent payload then
    set_queueTick (queueTick st + 1)
      (set_scheduleQueue (sq_push (sendable_id s) (channel, s, payload) (scheduleQueue st)) st)
  else beforeSend s channel payload st.

Definition entry_payload (e : QueueEntry) : jsval := let '(_, _, p) := e in p.

(** The payload one destination's queue is flushed with. *)
Definition batch_payload (es : list QueueEntry) : jsval :=
  match es with
  | [e] => entry_payload e
  | _ => JArr (map entry_payload es)
  end.

Fixpoint flush_each (q : list (Z * list QueueEntry)) (st : Engine) : Engine :=
  match q with
  | [] => st
  | (_, es) :: q' =>
      match es with
      | [] => flush_each q' st      (* never: a queue is created with one entry *)
      | (channel, s, _) :: _ => flush_each q' (beforeSend s channel (batch_payload es) st)
      end
  end.

Definition flushQueue (st : Engine) : Engine :=
  let q := scheduleQueue st in
  flush_each q (set_scheduleQueue [] (set_queueTick 0 st)).

(* ------------------------------------------------------------------ *)
(** ** Calls: [send] with a callback, responses and timers *)

(** JS numbers for the [timeout] argument. *)
Inductive jsnum :=
  | NFin (z : Z)
  | NInf
  | NNegInf
  | NNaN.

Definition num_truthy (n : jsnum) : bool :=
  match n with NFin z => negb (z =? 0)%Z | NNaN => false | _ => true end.

(** [timeout || DEFAULT_TIMEOUT]. *)
Definition effective_timeout (timeout : option jsnum) : jsnum :=
  match timeout with
  | Some t => if num_truthy t then t else NFin DEFAULT_TIMEOUT_MS
  | None => NFin DEFAULT_TIMEOUT_MS
  end.

(** [_timeout > 0 && _timeout !== Infinity]. *)
Definition timeout_enabled (t : jsnum) : bool :=
  match t with
  | NFin z => (0 <? z)%Z
  | NInf | NNegInf | NNaN => false
  end.

Definition push_call (c : Call) (st : Engine) : Engine := set_calls ((calls st ++ [c])%list) st.

(** [send(target, method, params, callback?, timeout?)] at time [now]
    ([Date.now()]); [callback] says whether a callback is passed.  Returns
    the new state and the boolean [send] returns. *)
Definition send (gs : Resolver) (now : N) (st : Engine) (tg : target) (method : string)
  (params : jsval) (callback : bool) (timeout : option jsnum) : Engine * bool :=
  let ev := negb callback in
  let '(st, id) :=
    if ev then (st, JUndef)
    else let '(u, s) := getId (uid st) now in (set_uid u st, JStr s) in
  let idkey := to_key id in
  let payload :=
    JObj [("jsonrpc", JStr "2.0"); ("method", JStr method); ("id", id); ("params", params)] in
  match getSender gs tg with
  | None =>
      if ev then (st, false)
      else (push_call
              (mkCall idkey method false false
                 [OError (newJSONRPCError (JNum (error_code_num TargetReleased))
                            ("can't send message to released target: " ++ target_to_string tg)
                            JUndef)]) st, false)
  | Some s =>
      let st :=
        if ev then st
        else
          let k := length (calls st) in
          let st := push_call (mkCall idkey method false
                                 (timeout_enabled (effective_timeout timeout)) []) st in
          set_responder (<[idkey := mkResponder k method params]> (responder st)) st in
      (scheduleRequest RPC_SEND_CHANNEL s payload st, true)
  end.

Definition emit (gs : Resolver) (now : N) (st : Engine) (tg : target) (method : string)
  (params : jsval) : Engine :=
  fst (send gs now st tg method params false None).

(** The wrapped callback [this.responder[id].callback] of call [k]. *)
Definition invoke_responder (k : nat) (o : outcome) (st : Engine) : Engine :=
  match calls st !! k with
  | Some c =>
      if c_resolved c then st
      else set_calls (<[k := mkCall (c_id c) (c_method c) true false ((c_outcomes c ++ [o])%list)]>
                        (calls st)) st
  | None => st
  end.

(** The timer of call [k] fires (a cleared or never-started timer does not). *)
Definition timer_fire (k : nat) (st : Engine) : Engine :=
  match calls st !! k with
  | Some c =>
      if c_timer c then
        if c_resolved c
        then set_calls (<[k := mkCall (c_id c) (c_method c) true false (c_outcomes c)]>
                          (calls st)) st
        else
          let err := newJSONRPCError (JNum (error_code_num Timeout))
                       (c_method c ++ " call timed out") JUndef in
          set_responder (delete (c_id c) (responder st))
            (set_calls (<[k := mkCall (c_id c) (c_method c) true false
                                 ((c_outcomes c ++ [OError err])%list)]> (calls st)) st)
      else st
  | None => st
  end.

(** [handleRPCResponse] on the parsed payload [res]. *)
Definition handleRPCResponse (st : Engine) (res : jsval) : exn_or Engine :=
  let* id := get_prop res "id" in
  let key := to_key id in
  match js_lookup (responder st) key with
  | Absent => Ret (log ("[JSONRPC] responder for " ++ key ++ " not found") st)
  | Inherited =>
      (* [responder.callback] is undefined: calling it throws *)
      let* _ := has_prop res "error" in Thrown TypeError
  | Own r =>
      let* is_error := has_prop res "error" in
      let* o := if is_error
                then let* e := get_prop res "error" in
                     let* err := recoverFromResponse e (rsp_name r) (rsp_args r) in
                     Ret (OError err)
                else let* v := get_prop res "result" in Ret (OResult v) in
      let st := invoke_responder (rsp_call r) o st in
      Ret (set_responder (delete key (responder st)) st)
  end.

(** [handleResponse]: [JSON.parse] (the builtin [parse], [None] when it
    throws) is not guarded. *)
Definition handleResponse (parse : string -> option jsval) (st : Engine) (raw : string)
  : exn_or Engine :=
  match parse raw with
  | None => Thrown SyntaxError
  | Some res => handleRPCResponse st res
  end.

(* ------------------------------------------------------------------ *)
(** ** Inbound requests and events *)

(** The scan of [getHandlerFor]: a global entry is remembered (a later one
    replaces it), a target-scoped entry matching the sender ends the scan. *)
Fixpoint pick_handler (gs : Resolver) (sender : Sendable) (l : list HandlerEntry)
  (acc : option HandlerEntry) : option HandlerEntry :=
  match l with
  | [] => acc
  | item :: r =>
      match h_target item with
      | None => pick_handler gs sender r (Some item)
      | Some _ =>
          if isSenderMatchTarget gs sender (h_target item) then Some item
          else pick_handler gs sender r acc
      end
  end.

Definition getHandlerFor (gs : Resolver) (st : Engine) (method : string) (sender : Sendable)
  : exn_or (option HandlerEntry) :=
  match js_lookup (handlers st) method with
  | Absent => Ret None
  | Inherited => Thrown TypeError      (* [for..of] over a non-iterable *)
  | Own l => Ret (pick_handler gs sender l None)
  end.

(** An invocation of an application callback: its reference, the params
    and [sender.id]. *)
Definition invocation := (N * jsval * Z)%type.

(** What an application callback does to the engine when invoked (it may
    call [on], [off], [emit], ... synchronously). *)
Definition Effects := N -> jsval -> Z -> Engine -> Engine.

(** [this.listeners[method].slice(0).forEach(...)] over the snapshot. *)
Fixpoint dispatch_event (gs : Resolver) (fx : Effects) (sender : Sendable) (params : jsval)
  (snapshot : list ListenerEntry) (st : Engine) : Engine * list invocation :=
  match snapshot with
  | [] => (st, [])
  | i :: r =>
      if isSenderMatchTarget gs sender (l_target i) then
        let st := fx (l_callback i) params (sendable_id sender) st in
        let '(st, inv) := dispatch_event gs fx sender params r st in
        (st, (l_callback i, params, sendable_id sender) :: inv)
      else dispatch_event gs fx sender params r st
  end.

Definition not_found_response (id : jsval) (method : string) : jsval :=
  JObj [("id", id); ("jsonrpc", JStr "2.0");
        ("error", JObj [("code", JNum (error_code_num NotFound));
                        ("message", JStr ("method " ++ method ++ " not found"))])].

(** One envelope of [handleRPCRequest].  The answer of a handler (its
    promise settling later) is not modelled; its synchronous part is [fx]. *)
Definition handle_single (gs : Resolver) (fx : Effects) (sender : Sendable) (req : jsval)
  (st : Engine) : Engine * list invocation * option exn :=
  match get_prop req "params", get_prop req "id", get_prop req "method" with
  | Ret params, Ret id, Ret m =>
      let method := to_key m in
      if is_nullish id then
        match js_lookup (listeners st) method with
        | Absent => (st, [], None)
        | Inherited => (st, [], Some TypeError)     (* [.slice] is not a function *)
        | Own l =>
            let '(st, inv) := dispatch_event gs fx sender params l st in (st, inv, None)
        end
      else
        match getHandlerFor gs st method sender with
        | Thrown e => (st, [], Some e)
        | Ret None =>
            (beforeSend sender RPC_RECEIVE_CHANNEL (not_found_response id method) st, [], None)
        | Ret (Some h) =>
            (fx (h_callback h) params (sendable_id sender) st,
             [(h_callback h, params, sendable_id sender)], None)
        end
  | _, _, _ => (st, [], Some TypeError)
  end.

(** [handleRPCRequest]: a batch is handled element by element; an exception
    stops the [forEach] and keeps the effects of the elements before it. *)
Fixpoint handleRPCRequest (gs : Resolver) (fx : Effects) (sender : Sendable) (req : jsval)
  (st : Engine) : Engine * list invocation * option exn :=
  match req with
  | JArr rs =>
      (fix each (rs : list jsval) (st : Engine) : Engine * list invocation * option exn :=
         match rs with
         | [] => (st, [], None)
         | r :: rs' =>
             let '(st, inv, e) := handleRPCRequest gs fx sender r st in
             match e with
             | Some _ => (st, inv, e)
             | None => let '(st, inv', e') := each rs' st in (st, (inv ++ inv')%list, e')
             end
         end) rs st
  | _ => handle_single gs fx sender req st
  end.

Definition handleRequest (parse : string -> option jsval) (gs : Resolver) (fx : Effects)
  (sender : Sendable) (st : Engine) (raw : string) : Engine * list invocation * option exn :=
  match parse raw with
  | None => (st, [], Some SyntaxError)
  | Some req => handleRPCRequest gs fx sender req st
  end.

(* ------------------------------------------------------------------ *)
(** ** Runs of the correlation engine *)

(** The events that drive pending calls: a call or an emit is issued, a
    response payload arrives, a timer fires, the scheduled flush runs. *)
Inductive step (gs : Resolver) : Engine -> Engine -> Prop :=
  | step_send now st tg m p cb timeout :
      step gs st (fst (send gs now st tg m p cb timeout))
  | step_response st res st' :
      handleRPCResponse st res = Ret st' -> step gs st st'
  | step_response_throws st res e :
      handleRPCResponse st res = Thrown e -> step gs st st
  | step_timer st k :
      step gs st (timer_fire k st)
  | step_flush st :
      step gs st (flushQueue st).

Inductive reachable (gs : Resolver) : Engine -> Prop :=
  | reach_init : reachable gs initial_engine
  | reach_step st st' : reachable gs st -> step gs st st' -> reachable gs st'.

(** The bookkeeping invariant of pending calls: a callback has been invoked
    at most once, exactly once when [resolved] is set, never while a timer
    is armed; every responder entry [id] belongs to the unsettled call whose
    id is [id]. *)
Definition call_ok (c : Call) : Prop :=
  (length (c_outcomes c) <= 1)%nat /\
  (c_resolved c = true -> length (c_outcomes c) = 1%nat) /\
  (c_timer c = true -> c_resolved c = false /\ c_outcomes c = []).

Definition settle_inv (st : Engine) : Prop :=
  (forall k c, calls st !! k = Some c -> call_ok c) /\
  (forall key r, responder st !! key = Some r ->
     exists c, calls st !! rsp_call r = Some c /\ c_id c = key /\
               c_resolved c = false /\ c_outcomes c = []).

(** Whether a property key begins with a decimal digit, as every id that
    [getId] renders does. *)
Definition starts_with_digit (s : string) : bool :=
  match s with
  | String a _ => (48 <=? N_of_ascii a)%N && (N_of_ascii a <? 58)%N
  | EmptyString => false
  end.

Definition keys_numeric (st : Engine) : Prop :=
  forall key r, responder st !! key = Some r -> starts_with_digit key = true.

(** A response whose [id] names a property of [Object.prototype]. *)
Definition forged_response : jsval :=
  JObj [("jsonrpc", JStr "2.0"); ("id", JStr "constructor"); ("result", JNum 1)].

(** An inbound Event as it arrives: no [id] member. *)
Definition event_envelope (method : string) (params : jsval) : jsval :=
  JObj [("jsonrpc", JStr "2.0"); ("method", JStr method); ("params", params)].

(** An inbound Request as it arrives. *)
Definition request_envelope (method : string) (id params : jsval) : jsval :=
  JObj [("jsonrpc", JStr "2.0"); ("method", JStr method); ("id", id); ("params", params)].

(** Runs of any length from a given state. *)
Inductive steps (gs : Resolver) : Engine -> Engine -> Prop :=
  | steps_refl st : steps gs st st
  | steps_next st st' st'' : step gs st st' -> steps gs st' st'' -> steps gs st st''.

(** [queue[k]]: the entries queued for destination [k]. *)
Fixpoint q_lookup (k : Z) (q : list (Z * list QueueEntry)) : list QueueEntry :=
  match q with
  | [] => []
  | (k', es) :: r => if Z.eqb k k' then es else q_lookup k r
  end.

(** The [for..in] order of the queue's keys: keys are distinct, and array
    indices come first, in ascending order. *)
Definition key_before (k k' : Z) : Prop :=
  k <> k' /\ (is_array_index k' = true -> is_array_index k = true /\ (k < k')%Z).

Fixpoint qord (q : list (Z * list QueueEntry)) : Prop :=
  match q with
  | [] => True
  | (k, _) :: r => Forall (fun b => key_before k (fst b)) r /\ qord r
  end.

(** An entry queued for destination [k] by [emit]. *)
Definition entry_ok (k : Z) (e : QueueEntry) : Prop :=
  let '(ch, s, _) := e in ch = RPC_SEND_CHANNEL /\ sendable_id s = k.

Definition bucket_ok (b : Z * list QueueEntry) : Prop :=
  snd b <> [] /\ Forall (entry_ok (fst b)) (snd b).

Definition qinv (q : list (Z * list QueueEntry)) : Prop := qord q /\ Forall bucket_ok q.

(** The Event envelope [send] builds for [emit(target, method, params)]. *)
Definition event_payload (method : string) (params : jsval) : jsval :=
  JObj [("jsonrpc", JStr "2.0"); ("method", JStr method); ("id", JUndef); ("params", params)].

(** A sequence of [emit(target, method, params)] calls. *)
Fixpoint emits (gs : Resolver) (now : N) (st : Engine) (es : list (target * string * jsval))
  : Engine :=
  match es with
  | [] => st
  | (t, m, p) :: r => emits gs now (emit gs now st t m p) r
  end.

(** The envelopes of the emitted events whose target resolves to
    destination [d], in emit order. *)
Fixpoint events_for (gs : Resolver) (d : Z) (es : list (target * string * jsval)) : list jsval :=
  match es with
  | [] => []
  | (t, m, p) :: r =>
      match getSender gs t with
      | Some s =>
          if Z.eqb (sendable_id s) d then event_payload m p :: events_for gs d r
          else events_for gs d r
      | None => events_for gs d r
      end
  end.

(** The transport record one [beforeSend] to destination [id] leaves:
    nothing when [JSON.stringify] throws. *)
Definition transmit (id : Z) (channel : string) (payload : jsval)
  : list (Z * string * option string) :=
  match JSON_stringify payload with
  | SStr str => [(id, channel, Some str)]
  | SUndef => [(id, channel, None)]
  | SErr => []
  end.

(** One envelope as is, several as an array. *)
Definition batch_of (ps : list jsval) : jsval :=
  match ps with
  | [p] => p
  | _ => JArr ps
  end.

(** ** Handler selection ([getHandlerFor]) *)

Definition no_match_for gs sender (j : HandlerEntry) : Prop :=
  h_target j = None \/ isSenderMatchTarget gs sender (h_target j) = false.

(** ** Ids of call cells, the queue counter, and the answer of a handler *)

(** Every call cell carries an id rendered by [getId]. *)
Definition ids_numeric (st : Engine) : Prop :=
  forall k c, calls st !! k = Some c -> starts_with_digit (c_id c) = true.

(** The number of entries waiting in the queue. *)
Fixpoint queued_count (q : list (Z * list QueueEntry)) : N :=
  match q with
  | [] => 0%N
  | (_, es) :: r => (N.of_nat (length es) + queued_count r)%N
  end.

(** [queueTick] counts the queued entries, and the queue keeps its shape. *)
Definition queue_ok (st : Engine) : Prop :=
  qinv (scheduleQueue st) /\ queueTick st = queued_count (scheduleQueue st).

(** How the promise returned by a handler's [callback] settles: fulfilled,
    rejected with an [AbstractJSONRPC.Error], or rejected with another
    value. *)
Inductive settlement :=
  | Fulfilled (v : jsval)
  | RejectedRPC (e : JSONRPCError)
  | RejectedOther (v : jsval).

(** The response the [.then] / [.catch] callbacks of [handleRPCRequest]
    build for request [id].  The [.catch] callback reads [err.message] and
    [err.stack], which throws when the rejection value is [null] or
    [undefined]. *)
Definition handler_response (id : jsval) (r : settlement) : exn_or jsval :=
  match r with
  | Fulfilled v => Ret (JObj [("id", id); ("jsonrpc", JStr "2.0"); ("result", v)])
  | RejectedRPC e =>
      Ret (JObj [("id", id); ("jsonrpc", JStr "2.0");
                 ("error", JObj [("code", e_code e); ("message", JStr (e_message e));
                                 ("data", JObj [("data", e_data e); ("stack", e_stack e)])])])
  | RejectedOther v =>
      let* msg := get_prop v "message" in
      let* stack := get_prop v "stack" in
      Ret (JObj [("id", id); ("jsonrpc", JStr "2.0");
                 ("error", JObj [("code", JNum (error_code_num UnKnown));
                                 ("message", if truthy msg then msg else v);
                                 ("data", JObj [("stack", stack)])])])
  end.

(** The answer to a request once its handler's promise settles: the
    response goes through [beforeSend]; when the [.catch] callback throws,
    nothing is sent. *)
Definition reply_request (sender : Sendable) (id : jsval) (r : settlement) (st : Engine)
  : Engine :=
  match handler_response id r with
  | Ret res => beforeSend sender RPC_RECEIVE_CHANNEL res st
  | Thrown _ => st
  end.

(** Every target resolves to destination 1; the state after one call to it
    at time 0, whose id is ["10"]. *)
Definition live_resolver : Resolver := fun _ => Resolved (mkSendable 1).

(** Every id target [TId z] resolves to destination [z]; objects are
    released. *)
Definition id_resolver : Resolver :=
  fun t => match t with TId z => Resolved (mkSendable z) | TObj _ => Released end.

Definition one_call_state : Engine :=
  fst (send live_resolver 0 initial_engine (TId 1) "m" JNull true None).

(** A clock set back between the 1st and the 11th call. *)
Definition clock_set_back (k : N) : N :=
  if (k <=? 1)%N then 1700000000000 else 700000000000.

(** A clock that advances by one millisecond per call. *)
Definition clock_ticking (k : N) : N := (1700000000000 + k)%N.

(** [n] calls [send(tg, m, null, callback, Infinity)] in a row, the [k]-th
    at time [clock k]; none of them is answered. *)
Fixpoint calls_at (gs : Resolver) (clock : N -> N) (tg : target) (m : string) (k : N)
  (n : nat) (st : Engine) : Engine :=
  match n with
  | O => st
  | S n' =>
      calls_at gs clock tg m (k + 1) n'
        (fst (send gs (clock k) st tg m JNull true (Some NInf)))
  end.

(** Eleven pending calls on a fresh engine, the clock set back after the
    first. *)
Definition set_back_state : Engine :=
  calls_at live_resolver clock_set_back (TId 1) "m" 1 11 initial_engine.

(* ================================================================== *)
(** * Proofs *)

(** ** Strings and decimal rendering *)

Lemma str_length_app (s t : string) :
  String.length (s ++ t) = (String.length s + String.length t)%nat.
Proof. induction s as [|c s IH]; simpl; [reflexivity | now rewrite IH]. Qed.

Lemma str_app_inj (s1 t1 s2 t2 : string) :
  s1 ++ t1 = s2 ++ t2 -> String.length s1 = String.length s2 -> s1 = s2 /\ t1 = t2.
Proof.
  revert s2. induction s1 as [|c s1 IH]; intros [|c2 s2] Heq Hlen;
    simpl in *; try discriminate; auto.
  injection Heq as -> Heq. injection Hlen as Hlen.
  destruct (IH s2 Heq Hlen) as [-> ->]. auto.
Qed.

Lemma digit_inj (a b : N) : (a < 10)%N -> (b < 10)%N -> digit a = digit b -> a = b.
Proof.
  intros Ha Hb H. unfold digit in H.
  apply (f_equal N_of_ascii) in H.
  rewrite !N_ascii_embedding in H by lia. lia.
Qed.

Lemma pow10_succ (f : nat) : (10 ^ N.of_nat (S f) = 10 * 10 ^ N.of_nat f)%N.
Proof. rewrite Nat2N.inj_succ, N.pow_succ_r'. reflexivity. Qed.

Lemma pow10_1 : (10 ^ N.of_nat 1 = 10)%N.
Proof. reflexivity. Qed.

Lemma div10_bound (n : N) (f : nat) :
  (n < 10 ^ N.of_nat (S f))%N -> (n / 10 < 10 ^ N.of_nat f)%N.
Proof.
  rewrite pow10_succ. intros H. apply N.Div0.div_lt_upper_bound. lia.
Qed.

Lemma dec_fuel_unfold (f : nat) (n : N) :
  dec_fuel (S f) n =
  if (n <? 10)%N then String (digit n) ""
  else dec_fuel f (n / 10) ++ String (digit (n mod 10)) "".
Proof. reflexivity. Qed.

Lemma dec_fuel_nonempty (f : nat) (n : N) : (1 <= String.length (dec_fuel (S f) n))%nat.
Proof.
  rewrite dec_fuel_unfold. destruct (n <? 10)%N; simpl; [lia|].
  rewrite str_length_app. simpl. lia.
Qed.

(** Enough fuel gives the same rendering. *)
Lemma dec_fuel_stable (f g : nat) (n : N) :
  (n < 10 ^ N.of_nat (S f))%N -> (n < 10 ^ N.of_nat (S g))%N ->
  dec_fuel (S f) n = dec_fuel (S g) n.
Proof.
  revert g n. induction f as [|f IH]; intros g n Hf Hg;
    rewrite !dec_fuel_unfold; destruct (N.ltb_spec n 10); auto.
  - rewrite pow10_1 in Hf. lia.
  - destruct g as [|g]; [simpl in Hg; lia|].
    f_equal. apply IH; apply div10_bound; assumption.
Qed.

Lemma size_bound (n : N) : (n < 10 ^ N.of_nat (S (N.to_nat (N.size n))))%N.
Proof.
  eapply N.lt_le_trans; [apply N.size_gt|].
  rewrite Nat2N.inj_succ, N2Nat.id.
  apply N.le_trans with (10 ^ N.size n)%N.
  - apply N.pow_le_mono_l. lia.
  - apply N.pow_le_mono_r; lia.
Qed.

Lemma dec_as_fuel (f : nat) (n : N) :
  (n < 10 ^ N.of_nat (S f))%N -> dec n = dec_fuel (S f) n.
Proof. intros H. unfold dec. apply dec_fuel_stable; [apply size_bound | exact H]. Qed.

Lemma dec_fuel_length_mono (f : nat) (n m : N) :
  (n <= m)%N -> (m < 10 ^ N.of_nat (S f))%N ->
  (String.length (dec_fuel (S f) n) <= String.length (dec_fuel (S f) m))%nat.
Proof.
  revert n m. induction f as [|f IH]; intros n m Hle Hm;
    rewrite (dec_fuel_unfold _ n), (dec_fuel_unfold _ m).
  - rewrite pow10_1 in Hm. destruct (N.ltb_spec n 10); destruct (N.ltb_spec m 10); simpl; lia.
  - destruct (N.ltb_spec n 10); destruct (N.ltb_spec m 10);
      rewrite ?str_length_app; cbn [String.length]; try lia.
    pose proof (IH (n / 10)%N (m / 10)%N (N.Div0.div_le_mono _ _ 10 Hle)
                   (div10_bound _ _ Hm)). lia.
Qed.

Lemma dec_fuel_inj (f : nat) (n m : N) :
  (n < 10 ^ N.of_nat (S f))%N -> (m < 10 ^ N.of_nat (S f))%N ->
  dec_fuel (S f) n = dec_fuel (S f) m -> n = m.
Proof.
  revert n m. induction f as [|f IH]; intros n m Hn Hm Heq;
    rewrite (dec_fuel_unfold _ n), (dec_fuel_unfold _ m) in Heq.
  - rewrite pow10_1 in Hn, Hm. destruct (N.ltb_spec n 10); [|lia].
    destruct (N.ltb_spec m 10); [|lia].
    injection Heq as Heq. apply digit_inj; assumption.
  - destruct (N.ltb_spec n 10); destruct (N.ltb_spec m 10).
    + injection Heq as Heq. apply digit_inj; assumption.
    + apply (f_equal String.length) in Heq. rewrite str_length_app in Heq.
      cbn [String.length] in Heq. pose proof (dec_fuel_nonempty f (m / 10)). lia.
    + apply (f_equal String.length) in Heq. rewrite str_length_app in Heq.
      cbn [String.length] in Heq. pose proof (dec_fuel_nonempty f (n / 10)). lia.
    + assert (Hl : String.length (dec_fuel (S f) (n / 10))
                   = String.length (dec_fuel (S f) (m / 10))).
      { apply (f_equal String.length) in Heq. rewrite !str_length_app in Heq.
        cbn [String.length] in Heq. lia. }
      destruct (str_app_inj _ _ _ _ Heq Hl) as [Hq Hr].
      injection Hr as Hr.
      apply IH in Hq; try apply div10_bound; try assumption.
      apply digit_inj in Hr; try apply N.mod_lt; try lia.
      rewrite (N.div_mod n 10), (N.div_mod m 10) by lia. lia.
Qed.

Lemma dec_inj (n m : N) : dec n = dec m -> n = m.
Proof.
  intros H.
  set (f := Nat.max (N.to_nat (N.size n)) (N.to_nat (N.size m))).
  assert (Hn : (n < 10 ^ N.of_nat (S f))%N).
  { eapply N.lt_le_trans; [apply size_bound|]. apply N.pow_le_mono_r; lia. }
  assert (Hm : (m < 10 ^ N.of_nat (S f))%N).
  { eapply N.lt_le_trans; [apply size_bound|]. apply N.pow_le_mono_r; lia. }
  rewrite (dec_as_fuel f n Hn), (dec_as_fuel f m Hm) in H.
  eapply dec_fuel_inj; eassumption.
Qed.

Lemma dec_length_mono (n m : N) :
  (n <= m)%N -> (String.length (dec n) <= String.length (dec m))%nat.
Proof.
  intros Hle.
  set (f := N.to_nat (N.size m)).
  assert (Hm : (m < 10 ^ N.of_nat (S f))%N) by apply size_bound.
  assert (Hn : (n < 10 ^ N.of_nat (S f))%N) by lia.
  rewrite (dec_as_fuel f n Hn), (dec_as_fuel f m Hm).
  apply dec_fuel_length_mono; assumption.
Qed.

(** ** Id allocation *)

Lemma uid_after_mod (k : N) : uid_after k = (k mod MAX_SAFE_INTEGER)%N.
Proof.
  induction k as [|k IH] using N.peano_ind.
  - reflexivity.
  - unfold uid_after in *. rewrite N.iter_succ, IH. simpl.
    rewrite N.Div0.add_mod_idemp_l. f_equal. lia.
Qed.

Lemma kth_id_no_wrap (clock : N -> N) (k : N) :
  (1 <= k < MAX_SAFE_INTEGER)%N -> kth_id clock k = dec k ++ dec (clock k).
Proof.
  intros Hk. unfold kth_id, getId. rewrite uid_after_mod. simpl.
  rewrite N.Div0.add_mod_idemp_l.
  replace (N.pred k + 1)%N with k by lia.
  rewrite N.mod_small by lia. reflexivity.
Qed.

Lemma calls_at_reachable gs clock tg m k n st :
  reachable gs st -> reachable gs (calls_at gs clock tg m k n st).
Proof.
  revert k st. induction n as [|n IH]; intros k st H; simpl; [exact H|].
  apply IH. eapply reach_step; [exact H|apply step_send].
Qed.

(** C7 (code_bug): the ids of pending calls are meant to be unique.  When
    [Date.now()] goes back between calls, the 1st and the 11th call of one
    engine, both still pending (timeout [Infinity], no response), get the
    same id ["11700000000000"]: counter and time are concatenated without a
    separator ([1] ++ [1700000000000] = [11] ++ [700000000000]).  The
    responder entry of the 1st call is overwritten by the 11th, so the one
    response with that id settles the 11th call and the 1st stays pending
    with no entry left. *)
Theorem pending_ids_collide_clock_set_back :
  reachable live_resolver set_back_state /\
  calls set_back_state !! 0%nat = Some (mkCall "11700000000000" "m" false false []) /\
  calls set_back_state !! 10%nat = Some (mkCall "11700000000000" "m" false false []) /\
  responder set_back_state !! "11700000000000" = Some (mkResponder 10 "m" JNull) /\
  exists st',
    handleRPCResponse set_back_state
      (JObj [("jsonrpc", JStr "2.0"); ("id", JStr "11700000000000"); ("result", JNum 1)])
    = Ret st' /\
    calls st' !! 0%nat = Some (mkCall "11700000000000" "m" false false []) /\
    calls st' !! 10%nat =
      Some (mkCall "11700000000000" "m" true false [OResult (JNum 1)]) /\
    responder st' !! "11700000000000" = None.
Proof.
  split; [apply calls_at_reachable, reach_init|].
  split; [vm_compute; reflexivity|]. split; [vm_compute; reflexivity|].
  split; [vm_compute; reflexivity|].
  eexists. split; [vm_compute; reflexivity|].
  split; [vm_compute; reflexivity|]. split; vm_compute; reflexivity.
Qed.

(** Before the counter wraps (fewer than MAX_SAFE_INTEGER ids issued) and
    with a clock that never goes backwards, the i-th and the j-th id issued
    by one engine are different. *)
Theorem getId_distinct_before_wrap (clock : N -> N) (i j : N) :
  (forall a b, (a <= b)%N -> (clock a <= clock b)%N) ->
  (1 <= i)%N -> (i < j)%N -> (j < MAX_SAFE_INTEGER)%N ->
  kth_id clock i <> kth_id clock j.
Proof.
  intros Hmono Hi Hij Hj Heq.
  rewrite !kth_id_no_wrap in Heq by lia.
  pose proof (dec_length_mono i j ltac:(lia)) as Hlij.
  pose proof (dec_length_mono _ _ (Hmono i j ltac:(lia))) as Hlc.
  pose proof (f_equal String.length Heq) as Hlen.
  rewrite !str_length_app in Hlen.
  assert (Hl : String.length (dec i) = String.length (dec j)) by lia.
  destruct (str_app_inj _ _ _ _ Heq Hl) as [Hd _].
  apply dec_inj in Hd. lia.
Qed.

Lemma getId_distinct_before_wrap_witness :
  (forall a b, (a <= b)%N -> (clock_ticking a <= clock_ticking b)%N) /\
  kth_id clock_ticking 1 <> kth_id clock_ticking 2.
Proof.
  split.
  - intros a b H. unfold clock_ticking. lia.
  - apply (getId_distinct_before_wrap clock_ticking 1 2).
    + intros a b H. unfold clock_ticking. lia.
    + lia.
    + lia.
    + unfold MAX_SAFE_INTEGER. lia.
Defined.

(** ** Pending calls settle at most once *)

Lemma bind_Ret {A B} (m : exn_or A) (k : A -> exn_or B) (b : B) :
  exn_bind m k = Ret b -> exists a, m = Ret a /\ k a = Ret b.
Proof. destruct m as [a|e]; simpl; [eauto | discriminate]. Qed.

Lemma js_lookup_Own {A} (m : gmap string A) k a : js_lookup m k = Own a -> m !! k = Some a.
Proof.
  unfold js_lookup. destruct (m !! k); [congruence|].
  destruct (existsb _ _); discriminate.
Qed.

Lemma beforeSend_keeps s ch p st :
  calls (beforeSend s ch p st) = calls st /\ responder (beforeSend s ch p st) = responder st.
Proof. unfold beforeSend. destruct (JSON_stringify p); split; reflexivity. Qed.

Lemma scheduleRequest_keeps ch s p st :
  calls (scheduleRequest ch s p st) = calls st /\
  responder (scheduleRequest ch s p st) = responder st.
Proof.
  unfold scheduleRequest. destruct (isEvent p); [split; reflexivity|].
  apply beforeSend_keeps.
Qed.

Lemma flush_each_keeps q st :
  calls (flush_each q st) = calls st /\ responder (flush_each q st) = responder st.
Proof.
  revert st. induction q as [|[k es] q IH]; intros st; cbn [flush_each]; [auto|].
  destruct es as [|[[ch s] p] es']; [apply IH|].
  destruct (IH (beforeSend s ch (batch_payload ((ch, s, p) :: es')) st)) as [H1 H2].
  destruct (beforeSend_keeps s ch (batch_payload ((ch, s, p) :: es')) st) as [H3 H4].
  split; etransitivity; eassumption.
Qed.

Lemma flushQueue_keeps st :
  calls (flushQueue st) = calls st /\ responder (flushQueue st) = responder st.
Proof.
  unfold flushQueue.
  destruct (flush_each_keeps (scheduleQueue st) (set_scheduleQueue [] (set_queueTick 0 st)))
    as [H1 H2].
  rewrite H1, H2. split; reflexivity.
Qed.

Lemma settle_inv_congr a b :
  calls a = calls b -> responder a = responder b -> settle_inv a -> settle_inv b.
Proof. unfold settle_inv. intros -> ->. auto. Qed.

Lemma settle_inv_push c st : settle_inv st -> call_ok c -> settle_inv (push_call c st).
Proof.
  intros [Ha Hb] Hc. split; simpl.
  - intros k c' Hk. apply lookup_app_Some in Hk as [Hk|[_ Hk]]; [eauto|].
    apply list_lookup_singleton_Some in Hk as [_ <-]. exact Hc.
  - intros key r Hr. destruct (Hb key r Hr) as (c' & H1 & H2).
    exists c'. split; [|exact H2]. apply lookup_app_Some. auto.
Qed.

Lemma settle_inv_send gs now st tg m p cb timeout :
  settle_inv st -> settle_inv (fst (send gs now st tg m p cb timeout)).
Proof.
  intros Hinv. unfold send. destruct cb; simpl.
  - destruct (getSender gs tg) as [s|]; simpl.
    + eapply settle_inv_congr;
        [symmetry; apply scheduleRequest_keeps | symmetry; apply scheduleRequest_keeps |].
      destruct Hinv as [Ha Hb]. split; simpl.
      * intros k c Hk. apply lookup_app_Some in Hk as [Hk|[_ Hk]]; [eauto|].
        apply list_lookup_singleton_Some in Hk as [_ <-].
        split; [simpl; lia|]. split; simpl; [discriminate|]. auto.
      * intros key r Hr. apply lookup_insert_Some in Hr as [[<- <-]|[Hne Hr]].
        -- eexists. split.
           ++ simpl. rewrite lookup_app_r by lia. rewrite Nat.sub_diag. reflexivity.
           ++ simpl. auto.
        -- destruct (Hb key r Hr) as (c' & H1 & H2). exists c'.
           split; [|exact H2]. apply lookup_app_Some. auto.
    + apply settle_inv_push; [destruct Hinv as [Ha Hb]; split; simpl; eauto|].
      split; [simpl; lia|]. split; simpl; discriminate.
  - destruct (getSender gs tg) as [s|]; simpl; [|exact Hinv].
    eapply settle_inv_congr;
      [symmetry; apply scheduleRequest_keeps | symmetry; apply scheduleRequest_keeps |].
    exact Hinv.
Qed.

Lemma settle_inv_invoke_delete st key r o :
  settle_inv st -> responder st !! key = Some r ->
  settle_inv (set_responder (delete key (responder (invoke_responder (rsp_call r) o st)))
                (invoke_responder (rsp_call r) o st)).
Proof.
  intros [Ha Hb] Hr. destruct (Hb key r Hr) as (c & Hc & Hid & Hres & Hout).
  unfold invoke_responder. rewrite Hc, Hres. split; simpl.
  - intros k c' Hk. apply list_lookup_insert_Some in Hk as [(_ & <- & _)|[_ Hk]]; [|eauto].
    rewrite Hout. split; [simpl; lia|]. split; simpl; [reflexivity|discriminate].
  - intros key' r' Hr'. apply lookup_delete_Some in Hr' as [Hne Hr'].
    destruct (Hb key' r' Hr') as (c' & Hc' & Hid' & H').
    exists c'. split; [|auto].
    rewrite list_lookup_insert_ne; [exact Hc'|].
    intros Heq. rewrite <- Heq in Hc'. congruence.
Qed.

Lemma settle_inv_response st res st' :
  settle_inv st -> handleRPCResponse st res = Ret st' -> settle_inv st'.
Proof.
  intros Hinv H. unfold handleRPCResponse in H.
  apply bind_Ret in H as (id & _ & H).
  destruct (js_lookup (responder st) (to_key id)) as [r| |] eqn:Hl.
  - apply js_lookup_Own in Hl.
    apply bind_Ret in H as (b & _ & H).
    apply bind_Ret in H as (o & _ & H). injection H as <-.
    apply settle_inv_invoke_delete; assumption.
  - apply bind_Ret in H as (_ & _ & H). discriminate.
  - injection H as <-. exact Hinv.
Qed.

Lemma settle_inv_timer st k : settle_inv st -> settle_inv (timer_fire k st).
Proof.
  intros Hinv. unfold timer_fire.
  destruct (calls st !! k) as [c|] eqn:Hc; [|exact Hinv].
  destruct (c_timer c) eqn:Ht; [|exact Hinv].
  destruct Hinv as [Ha Hb].
  destruct (Ha k c Hc) as (_ & _ & Hoff). destruct (Hoff Ht) as [Hres Hout].
  rewrite Hres. split; simpl.
  - intros k' c' Hk. apply list_lookup_insert_Some in Hk as [(_ & <- & _)|[_ Hk]]; [|eauto].
    rewrite Hout. split; [simpl; lia|]. split; simpl; [reflexivity|discriminate].
  - intros key' r' Hr'. apply lookup_delete_Some in Hr' as [Hne Hr'].
    destruct (Hb key' r' Hr') as (c' & Hc' & Hid' & H').
    exists c'. split; [|auto].
    rewrite list_lookup_insert_ne; [exact Hc'|].
    intros Heq. rewrite <- Heq in Hc'. congruence.
Qed.

Lemma settle_inv_step gs st st' : settle_inv st -> step gs st st' -> settle_inv st'.
Proof.
  intros Hinv Hs. destruct Hs.
  - apply settle_inv_send; assumption.
  - eapply settle_inv_response; eassumption.
  - exact Hinv.
  - apply settle_inv_timer; assumption.
  - eapply settle_inv_congr;
      [symmetry; apply flushQueue_keeps | symmetry; apply flushQueue_keeps | exact Hinv].
Qed.

Lemma settle_inv_reachable gs st : reachable gs st -> settle_inv st.
Proof.
  induction 1 as [|st st' _ IH Hs].
  - split; simpl; intros k c H; [rewrite lookup_nil in H | rewrite lookup_empty in H];
      discriminate.
  - eapply settle_inv_step; eassumption.
Qed.

(** In no reachable state has a caller's callback been invoked twice. *)
Lemma callback_at_most_once gs st k c :
  reachable gs st -> calls st !! k = Some c -> (length (c_outcomes c) <= 1)%nat.
Proof. intros Hr Hc. apply (proj1 (settle_inv_reachable gs st Hr) k c Hc). Qed.

(** A response for the call an entry belongs to settles it, leaves its
    timer cleared and removes the entry. *)
Lemma response_settles gs st res id r st' :
  reachable gs st -> get_prop res "id" = Ret id ->
  responder st !! to_key id = Some r -> handleRPCResponse st res = Ret st' ->
  responder st' !! to_key id = None /\
  exists c, calls st' !! rsp_call r = Some c /\ c_resolved c = true /\
            c_timer c = false /\ length (c_outcomes c) = 1%nat.
Proof.
  intros Hreach Hid Hr H.
  destruct (settle_inv_reachable gs st Hreach) as [Ha Hb].
  destruct (Hb _ _ Hr) as (c & Hc & _ & Hres & Hout).
  unfold handleRPCResponse in H. rewrite Hid in H. simpl in H.
  unfold js_lookup in H. rewrite Hr in H.
  apply bind_Ret in H as (b & _ & H).
  apply bind_Ret in H as (o & _ & H). injection H as <-.
  simpl. split; [apply lookup_delete_eq|].
  unfold invoke_responder. rewrite Hc, Hres. simpl.
  eexists. split; [apply list_lookup_insert_eq; eapply lookup_lt_Some; eassumption|].
  rewrite Hout. simpl. auto.
Qed.

(** A timer that fires first settles the call and removes its entry: the
    callback has then received exactly one value, an error with code
    [Timeout]. *)
Lemma timer_settles gs st k c :
  reachable gs st -> calls st !! k = Some c -> c_timer c = true ->
  responder (timer_fire k st) !! c_id c = None /\
  exists c', calls (timer_fire k st) !! k = Some c' /\ c_resolved c' = true /\
             c_timer c' = false /\
             exists err, c_outcomes c' = [OError err] /\
                         e_code err = JNum (error_code_num Timeout).
Proof.
  intros Hreach Hc Ht.
  destruct (settle_inv_reachable gs st Hreach) as [Ha _].
  destruct (Ha k c Hc) as (_ & _ & Hoff). destruct (Hoff Ht) as [Hres Hout].
  unfold timer_fire. rewrite Hc, Ht, Hres. simpl.
  split; [apply lookup_delete_eq|].
  eexists. split; [apply list_lookup_insert_eq; eapply lookup_lt_Some; eassumption|].
  rewrite Hout. simpl. split; [reflexivity|]. split; [reflexivity|].
  eexists. split; reflexivity.
Qed.

(** A response whose id has no entry (and is not a name [Object.prototype]
    provides) is logged and dropped. *)
Lemma unknown_response_dropped st res id :
  get_prop res "id" = Ret id -> responder st !! to_key id = None ->
  existsb (String.eqb (to_key id)) object_prototype_keys = false ->
  handleRPCResponse st res
  = Ret (log ("[JSONRPC] responder for " ++ to_key id ++ " not found") st).
Proof.
  intros Hid Hr Hp. unfold handleRPCResponse. rewrite Hid. simpl.
  unfold js_lookup. rewrite Hr, Hp. reflexivity.
Qed.

(** ** Response ids are always rendered numbers *)

Lemma str_app_assoc (a b c : string) : (a ++ b) ++ c = a ++ (b ++ c).
Proof. induction a as [|x a IH]; [reflexivity | exact (f_equal (String x) IH)]. Qed.

Lemma digit_start (d : N) (t : string) :
  (d < 10)%N -> starts_with_digit (String (digit d) t) = true.
Proof.
  intros Hd. unfold starts_with_digit, digit.
  rewrite N_ascii_embedding by lia.
  apply andb_true_intro. split; [apply N.leb_le | apply N.ltb_lt]; lia.
Qed.

Lemma dec_fuel_starts (f : nat) (n : N) (t : string) :
  dec_fuel f n = "" \/ starts_with_digit (dec_fuel f n ++ t) = true.
Proof.
  revert n t. induction f as [|f IH]; intros n t; [left; reflexivity|].
  right. rewrite dec_fuel_unfold. destruct (n <? 10)%N eqn:Hn.
  - apply digit_start. apply N.ltb_lt. exact Hn.
  - rewrite str_app_assoc.
    destruct (IH (n / 10)%N (String (digit (n mod 10)) "" ++ t)) as [He|Hs]; [|exact Hs].
    rewrite He. apply digit_start. apply N.mod_lt. lia.
Qed.

Lemma getId_starts (u now u' : N) (s : string) :
  getId u now = (u', s) -> starts_with_digit s = true.
Proof.
  unfold getId. intros H. injection H as _ <-. unfold dec at 1.
  destruct (dec_fuel_starts (S (N.to_nat (N.size ((u + 1) mod MAX_SAFE_INTEGER))))
              ((u + 1) mod MAX_SAFE_INTEGER) (dec now)) as [He|Hs]; [|exact Hs].
  pose proof (dec_fuel_nonempty (N.to_nat (N.size ((u + 1) mod MAX_SAFE_INTEGER)))
                ((u + 1) mod MAX_SAFE_INTEGER)) as Hl.
  rewrite He in Hl. simpl in Hl. lia.
Qed.

Lemma keys_numeric_step gs st st' : keys_numeric st -> step gs st st' -> keys_numeric st'.
Proof.
  intros Hk Hs. destruct Hs as [now st tg m p cb timeout|st res st' H|st res e _|st k|st].
  - unfold send. destruct cb; cbn [negb].
    + destruct (getId (uid st) now) as [u s] eqn:Hg.
      destruct (getSender gs tg) as [snd|]; [|exact Hk]. cbv beta iota zeta. cbn [fst].
      intros key r. rewrite (proj2 (scheduleRequest_keeps _ _ _ _)). simpl.
      intros Hr. apply lookup_insert_Some in Hr as [[<- _]|[_ Hr]]; [|exact (Hk _ _ Hr)].
      exact (getId_starts _ _ _ _ Hg).
    + destruct (getSender gs tg) as [snd|]; [|exact Hk]. cbv beta iota zeta. cbn [fst].
      intros key r. rewrite (proj2 (scheduleRequest_keeps _ _ _ _)). exact (Hk key r).
  - unfold handleRPCResponse in H.
    apply bind_Ret in H as (id & _ & H).
    destruct (js_lookup (responder st) (to_key id)) as [r| |].
    + apply bind_Ret in H as (b & _ & H).
      apply bind_Ret in H as (o & _ & H). injection H as <-.
      intros key r'. simpl. intros Hr. apply lookup_delete_Some in Hr as [_ Hr].
      unfold invoke_responder in Hr.
      destruct (calls st !! rsp_call r) as [c|]; [destruct (c_resolved c)|]; exact (Hk _ _ Hr).
    + apply bind_Ret in H as (_ & _ & H). discriminate.
    + injection H as <-. exact Hk.
  - exact Hk.
  - unfold timer_fire. destruct (calls st !! k) as [c|]; [|exact Hk].
    destruct (c_timer c); [|exact Hk].
    destruct (c_resolved c); [exact Hk|].
    intros key r. simpl. intros Hr. apply lookup_delete_Some in Hr as [_ Hr]. exact (Hk _ _ Hr).
  - intros key r. rewrite (proj2 (flushQueue_keeps st)). exact (Hk key r).
Qed.

Lemma keys_numeric_reachable gs st : reachable gs st -> keys_numeric st.
Proof.
  induction 1 as [|st st' _ IH Hs].
  - intros key r H. simpl in H. rewrite lookup_empty in H. discriminate.
  - eapply keys_numeric_step; eassumption.
Qed.

(** ** Claims *)

(** C1 (code_bug): a response whose id has no correlation entry is meant to
    be logged and dropped without raising.  In every reachable state, a
    response with id ["constructor"] finds the property [responder.constructor]
    inherited from [Object.prototype], which is not null; calling its
    [callback] (undefined) raises a [TypeError] out of [handleRPCResponse]. *)
Theorem handleRPCResponse_forged_id_throws gs st :
  reachable gs st -> handleRPCResponse st forged_response = Thrown TypeError.
Proof.
  intros Hr.
  assert (Hn : responder st !! "constructor" = None).
  { destruct (responder st !! "constructor") as [r|] eqn:He; [|reflexivity].
    pose proof (keys_numeric_reachable gs st Hr _ _ He) as Hd. discriminate Hd. }
  unfold handleRPCResponse. simpl. unfold js_lookup. rewrite Hn. reflexivity.
Qed.

Lemma handleRPCResponse_forged_id_throws_witness :
  reachable (fun _ => Released) initial_engine /\
  handleRPCResponse initial_engine forged_response = Thrown TypeError.
Proof.
  split; [apply reach_init|].
  apply (handleRPCResponse_forged_id_throws (fun _ => Released)). apply reach_init.
Defined.

(** ** Registries and released targets *)

Lemma findIndex_none {A} (p : A -> bool) (l : list A) :
  (forall x, p x = false) -> findIndex p l = None.
Proof. intros Hp. induction l as [|x l IH]; simpl; [reflexivity|]. rewrite Hp, IH. reflexivity. Qed.

Lemma existsb_none {A} (p : A -> bool) (l : list A) :
  (forall x, p x = false) -> existsb p l = false.
Proof. intros Hp. induction l as [|x l IH]; simpl; [reflexivity|]. now rewrite Hp, IH. Qed.

Lemma filter_keep_all {A} (p : A -> bool) (l : list A) :
  (forall x, p x = true) -> filter p l = l.
Proof.
  intros Hp. induction l as [|x l IH]; [reflexivity|].
  rewrite filter_cons_True by (rewrite Hp; exact I). now rewrite IH.
Qed.

Lemma isTargetEqual_released gs t u :
  getSender gs t = None ->
  isTargetEqual gs (Some t) u = false /\ isTargetEqual gs u (Some t) = false.
Proof.
  intros Ht. destruct u as [u|]; simpl; [|auto].
  rewrite Ht. destruct (getSender gs u); auto.
Qed.

(** C10: a target that does not resolve to a [Sendable] compares unequal
    to every target, itself included; so [off], [unregisterHandler] and
    [removeAllListener] with it remove nothing, and [registerHandler] with it
    never reports a registration conflict. *)
Theorem released_target_matches_nothing gs (t : target) :
  getSender gs t = None ->
  (forall u, isTargetEqual gs (Some t) u = false /\ isTargetEqual gs u (Some t) = false) /\
  (forall st m cb st' b, off gs st m cb (Some t) = Ret (st', b) -> st' = st /\ b = false) /\
  (forall st m st' b,
     unregisterHandler gs st m (Some t) = Ret (st', b) -> st' = st /\ b = false) /\
  (forall st, removeAllListener gs st (Some t) = st) /\
  (forall st m h msg, registerHandler gs st m h (Some t) <> Thrown (RegisterConflict msg)).
Proof.
  intros Ht. split; [|split; [|split; [|split]]].
  - intros u. apply isTargetEqual_released. exact Ht.
  - intros st m cb st' b. unfold off.
    destruct (js_lookup (listeners st) m) as [l| |]; [|discriminate|intros [= <- <-]; auto].
    rewrite findIndex_none; [intros [= <- <-]; auto|].
    intros x. rewrite (proj2 (isTargetEqual_released gs t (l_target x) Ht)).
    apply andb_false_r.
  - intros st m st' b. unfold unregisterHandler.
    destruct (js_lookup (handlers st) m) as [l| |]; [|discriminate|intros [= <- <-]; auto].
    rewrite findIndex_none; [intros [= <- <-]; auto|].
    intros x. exact (proj2 (isTargetEqual_released gs t (h_target x) Ht)).
  - intros st. unfold removeAllListener.
    rewrite (map_fmap_ext _ id); [rewrite map_fmap_id; destruct st; reflexivity|].
    intros m l _. cbv zeta.
    rewrite filter_keep_all; [destruct (Nat.eqb _ _); reflexivity|].
    intros e. rewrite (proj1 (isTargetEqual_released gs t (l_target e) Ht)). reflexivity.
  - intros st m h msg. unfold registerHandler. cbn [exn_bind].
    destruct (target_truthy t); [|destruct (js_lookup (handlers st) m); discriminate].
    destruct (js_lookup (handlers st) m) as [l| |]; cbn [exn_bind]; try discriminate.
    rewrite existsb_none; [cbn [exn_bind]; discriminate|].
    intros x. exact (proj1 (isTargetEqual_released gs t (h_target x) Ht)).
Qed.

Lemma released_target_matches_nothing_witness :
  getSender (fun _ => Released) (TId 7) = None /\
  removeAllListener (fun _ => Released)
    (set_listeners (<["m" := [mkListenerEntry (Some (TId 7)) 1]]> ∅) initial_engine)
    (Some (TId 7))
  = set_listeners (<["m" := [mkListenerEntry (Some (TId 7)) 1]]> ∅) initial_engine.
Proof.
  split; [reflexivity|].
  apply (released_target_matches_nothing (fun _ => Released) (TId 7)). reflexivity.
Defined.

(** ** Event dispatch *)

Lemma dispatch_event_invocations gs fx sender p l st :
  snd (dispatch_event gs fx sender p l st) =
  map (fun i => (l_callback i, p, sendable_id sender))
      (filter (fun i => isSenderMatchTarget gs sender (l_target i)) l).
Proof.
  revert st. induction l as [|i l IH]; intros st; [reflexivity|]. simpl.
  destruct (isSenderMatchTarget gs sender (l_target i)) eqn:Hm.
  - rewrite filter_cons_True by (rewrite Hm; exact I).
    destruct (dispatch_event gs fx sender p l (fx (l_callback i) p (sendable_id sender) st))
      as [st' inv] eqn:Hd.
    simpl. f_equal. rewrite <- (IH (fx (l_callback i) p (sendable_id sender) st)), Hd. reflexivity.
  - rewrite filter_cons_False by (rewrite Hm; auto). apply IH.
Qed.

(** C9: for an inbound Event for [method], the callbacks invoked are, in
    registration order, exactly the entries of the listener list held before
    the dispatch whose target is unset or resolves to the sender; the list
    does not depend on what the callbacks do to the engine ([fx]), so a
    callback that adds or removes listeners changes nothing for this
    dispatch. *)
Theorem event_dispatch_snapshot gs (fx : Effects) sender method params st :
  snd (fst (handleRPCRequest gs fx sender (event_envelope method params) st)) =
  map (fun i => (l_callback i, params, sendable_id sender))
      (filter (fun i => isSenderMatchTarget gs sender (l_target i))
              (default [] (listeners st !! method))).
Proof.
  unfold handleRPCRequest, handle_single, event_envelope. simpl.
  unfold js_lookup. destruct (listeners st !! method) as [l|]; simpl.
  - destruct (dispatch_event gs fx sender params l st) as [st' inv] eqn:Hd. simpl.
    rewrite <- (dispatch_event_invocations gs fx sender params l st), Hd. reflexivity.
  - destruct (_ || _); reflexivity.
Qed.

(** ** Request dispatch *)

(** A request for a method without handlers, whose name is not one of
    [Object.prototype], is answered with [NotFound] echoing its id. *)
Lemma request_unknown_method_not_found gs fx sender m id p st :
  is_nullish id = false -> handlers st !! m = None ->
  existsb (String.eqb m) object_prototype_keys = false ->
  handleRPCRequest gs fx sender (request_envelope m id p) st =
  (beforeSend sender RPC_RECEIVE_CHANNEL (not_found_response id m) st, [], None).
Proof.
  intros Hid Hh Hp. unfold handleRPCRequest, handle_single, request_envelope. simpl.
  rewrite Hid. unfold getHandlerFor, js_lookup. rewrite Hh, Hp. reflexivity.
Qed.

(** C5 (code_bug): a Request for a method nobody registered should be
    answered with [NotFound].  For the method ["constructor"] the lookup
    [this.handlers[method]] finds the inherited [Object] function, the
    [for..of] over it raises a [TypeError], and nothing is sent back: the
    engine state, outbox included, is unchanged. *)
Theorem request_proto_method_throws gs (fx : Effects) sender st :
  handlers st !! "constructor" = None ->
  handleRPCRequest gs fx sender (request_envelope "constructor" (JStr "1") JNull) st
  = (st, [], Some TypeError).
Proof.
  intros Hh. unfold handleRPCRequest, handle_single, request_envelope. simpl.
  unfold getHandlerFor, js_lookup. rewrite Hh. reflexivity.
Qed.

Lemma request_proto_method_throws_witness :
  handlers initial_engine !! "constructor" = None /\
  handleRPCRequest (fun _ => Released) (fun _ _ _ st => st) (mkSendable 1)
    (request_envelope "constructor" (JStr "1") JNull) initial_engine
  = (initial_engine, [], Some TypeError).
Proof.
  split; [reflexivity|].
  apply (request_proto_method_throws (fun _ => Released) (fun _ _ _ st => st)). reflexivity.
Defined.

(** ** Handler registration *)

(** C6 (code_bug): registering a handler for the method ["constructor"] on
    a registry that has none throws a [TypeError], whatever the target: the
    first registration fails although nothing conflicts, and two distinct
    targets cannot both register. *)
Theorem registerHandler_proto_method_throws gs st h t :
  handlers st !! "constructor" = None ->
  registerHandler gs st "constructor" h t = Thrown TypeError.
Proof.
  intros Hh. unfold registerHandler.
  assert (Hl : js_lookup (handlers st) "constructor" = Inherited)
    by (unfold js_lookup; rewrite Hh; reflexivity).
  rewrite Hl. destruct t as [tv|]; cbn [exn_bind]; [|reflexivity].
  destruct (target_truthy tv); reflexivity.
Qed.

Lemma registerHandler_proto_method_throws_witness :
  handlers initial_engine !! "constructor" = None /\
  registerHandler (fun t => Resolved (mkSendable 1)) initial_engine "constructor" 1
    (Some (TId 1)) = Thrown TypeError.
Proof.
  split; [reflexivity|].
  apply (registerHandler_proto_method_throws (fun t => Resolved (mkSendable 1))). reflexivity.
Defined.

(** For a method name that is an own key, the two conflict checks behave as
    documented: a second global handler and a second handler for a target
    with the same resolved identity are refused. *)
Lemma registerHandler_conflicts gs st m h l :
  handlers st !! m = Some l ->
  (existsb (fun i => match h_target i with None => true | Some _ => false end) l = true ->
   exists msg, registerHandler gs st m h None = Thrown (RegisterConflict msg)) /\
  (forall tv, target_truthy tv = true ->
   existsb (fun i => isTargetEqual gs (Some tv) (h_target i)) l = true ->
   exists msg, registerHandler gs st m h (Some tv) = Thrown (RegisterConflict msg)).
Proof.
  intros Hl. unfold registerHandler, js_lookup. rewrite Hl. split.
  - intros He. rewrite He. eexists. reflexivity.
  - intros tv Ht He. cbn [exn_bind]. rewrite Ht, He. eexists. reflexivity.
Qed.

(** The scoped duplicate check is guarded by [target &&]: a falsy target
    (the id [0]) is registered twice for the same method without conflict. *)
Lemma registerHandler_falsy_target_twice :
  exists st,
    registerHandler (fun t => Resolved (mkSendable 0)) initial_engine "m" 1 (Some (TId 0))
    = Ret st /\
    exists st', registerHandler (fun t => Resolved (mkSendable 0)) st "m" 2 (Some (TId 0))
                = Ret st'.
Proof. eexists. split; [reflexivity|]. eexists. reflexivity. Qed.

(** ** Codec failures *)

(** C8 (code_bug): a malformed inbound payload ([JSON.parse] throws) is not
    caught: the [SyntaxError] leaves both the response and the request
    path.  Only the outbound side is contained: an unserializable payload is
    logged by [beforeSend] and nothing is sent. *)
Theorem codec_failure_escapes (parse : string -> option jsval) gs (fx : Effects) sender
  st raw ch :
  parse raw = None ->
  handleResponse parse st raw = Thrown SyntaxError /\
  handleRequest parse gs fx sender st raw = (st, [], Some SyntaxError) /\
  beforeSend sender ch (JBigInt 1) st = log "[JSONRPC] failed to serialize payload" st.
Proof.
  intros Hp. unfold handleResponse, handleRequest. rewrite Hp. auto.
Qed.

Lemma codec_failure_escapes_witness :
  (fun s => if String.eqb s "{" then None else Some JNull) "{" = None /\
  handleResponse (fun s => if String.eqb s "{" then None else Some JNull) initial_engine "{"
  = Thrown SyntaxError.
Proof.
  split; [reflexivity|].
  apply (codec_failure_escapes (fun s => if String.eqb s "{" then None else Some JNull)
           (fun _ => Released) (fun _ _ _ st => st) (mkSendable 1) initial_engine "{"
           RPC_SEND_CHANNEL).
  reflexivity.
Defined.

(** ** Calls to released targets *)

(** C2 (counterexample): a call with a callback to a target that does not
    resolve still allocates an id: the counter of a fresh engine moves from
    0 to 1. *)
Lemma send_released_allocates_id :
  uid initial_engine = 0%N /\
  uid (fst (send (fun _ => Released) 0 initial_engine (TId 1) "m" JNull true None)) = 1%N.
Proof. split; reflexivity. Qed.

(** C2 (amended): a call whose target does not resolve (released, or its
    resolution throws) returns [false], its callback receives one
    [TargetReleased] error at once, no timer is armed, no responder entry is
    added and nothing is sent or queued; the id counter advances as one
    [getId] would. *)
Theorem send_released_fails_fast gs now st tg m p timeout :
  getSender gs tg = None ->
  let st' := fst (send gs now st tg m p true timeout) in
  snd (send gs now st tg m p true timeout) = false /\
  uid st' = fst (getId (uid st) now) /\
  responder st' = responder st /\ outbox st' = outbox st /\
  scheduleQueue st' = scheduleQueue st /\ queueTick st' = queueTick st /\
  exists c err, calls st' = (calls st ++ [c])%list /\ c_timer c = false /\
    c_outcomes c = [OError err] /\ e_code err = JNum (error_code_num TargetReleased).
Proof.
  intros Hg. unfold send. cbn [negb].
  destruct (getId (uid st) now) as [u s] eqn:Hid. rewrite Hg. cbn.
  repeat split; try reflexivity.
  do 2 eexists. repeat split; reflexivity.
Qed.

Lemma send_released_fails_fast_witness :
  getSender (fun _ => ResolveThrows) (TId 3) = None /\
  snd (send (fun _ => ResolveThrows) 5 initial_engine (TId 3) "m" JNull true None) = false.
Proof.
  split; [reflexivity|].
  apply (send_released_fails_fast (fun _ => ResolveThrows) 5 initial_engine (TId 3) "m" JNull
           None).
  reflexivity.
Defined.

(** ** Timeouts *)

Lemma timer_stays_off_step gs st st' k c :
  step gs st st' -> calls st !! k = Some c -> c_timer c = false ->
  exists c', calls st' !! k = Some c' /\ c_timer c' = false.
Proof.
  intros Hs Hc Ht. destruct Hs as [now st tg m p cb timeout|st res st' H|st res e _|st j|st].
  - unfold send. destruct cb; cbn [negb].
    + destruct (getId (uid st) now) as [u s] eqn:Hg.
      destruct (getSender gs tg) as [snd|]; cbv beta iota zeta; cbn [fst].
      * rewrite (proj1 (scheduleRequest_keeps _ _ _ _)). simpl.
        exists c. split; [|exact Ht]. apply lookup_app_Some. auto.
      * simpl. exists c. split; [|exact Ht]. apply lookup_app_Some. auto.
    + destruct (getSender gs tg) as [snd|]; cbv beta iota zeta; cbn [fst]; [|eauto].
      rewrite (proj1 (scheduleRequest_keeps _ _ _ _)). eauto.
  - unfold handleRPCResponse in H.
    apply bind_Ret in H as (id & _ & H).
    destruct (js_lookup (responder st) (to_key id)) as [r| |].
    + apply bind_Ret in H as (b & _ & H).
      apply bind_Ret in H as (o & _ & H). injection H as <-. simpl.
      unfold invoke_responder.
      destruct (calls st !! rsp_call r) as [c0|] eqn:H0; [|eauto].
      destruct (c_resolved c0); [eauto|]. simpl.
      destruct (decide (rsp_call r = k)) as [<-|Hne].
      * eexists. split; [apply list_lookup_insert_eq; eapply lookup_lt_Some; eassumption|].
        reflexivity.
      * rewrite list_lookup_insert_ne by exact Hne. eauto.
    + apply bind_Ret in H as (_ & _ & H). discriminate.
    + injection H as <-. eauto.
  - eauto.
  - unfold timer_fire. destruct (calls st !! j) as [c0|] eqn:H0; [|eauto].
    destruct (c_timer c0); [|eauto].
    destruct (decide (j = k)) as [<-|Hne].
    + destruct (c_resolved c0); simpl; eexists;
        (split; [apply list_lookup_insert_eq; eapply lookup_lt_Some; eassumption|]);
        reflexivity.
    + destruct (c_resolved c0); simpl; rewrite list_lookup_insert_ne by exact Hne; eauto.
  - rewrite (proj1 (flushQueue_keeps st)). eauto.
Qed.

Lemma timer_stays_off gs st st' k c :
  steps gs st st' -> calls st !! k = Some c -> c_timer c = false ->
  exists c', calls st' !! k = Some c' /\ c_timer c' = false.
Proof.
  intros Hs. revert c. induction Hs as [st|st st1 st2 Hs _ IH]; intros c Hc Ht; [eauto|].
  destruct (timer_stays_off_step gs st st1 k c Hs Hc Ht) as (c1 & H1 & H2).
  exact (IH c1 H1 H2).
Qed.

(** C3 (counterexample): a timeout of [0] does not disable expiry: [0 ||
    DEFAULT_TIMEOUT] is the default, a timer is armed, and when it fires the
    call rejects with [Timeout]. *)
Lemma send_zero_timeout_arms_timer :
  let st1 := fst (send (fun _ => Resolved (mkSendable 1)) 0 initial_engine (TId 1) "m" JNull
                    true (Some (NFin 0))) in
  (exists c, calls st1 = [c] /\ c_timer c = true) /\
  (exists c err, calls (timer_fire 0 st1) = [c] /\ c_outcomes c = [OError err] /\
     e_code err = JNum (error_code_num Timeout)).
Proof. split; do 2 try eexists; repeat split; vm_compute; reflexivity. Qed.

(** C3 (amended): a call arms a timer exactly when its effective timeout
    ([timeout || DEFAULT_TIMEOUT]) is positive and finite: an omitted, [0] or
    [NaN] timeout takes the default and arms one, a positive finite one arms
    one, [Infinity] and non-positive values do not; without a timer the call
    is never rejected by a timer, whatever happens next. *)
Theorem send_timer_iff_enabled gs now st tg m p timeout s :
  getSender gs tg = Some s ->
  let st1 := fst (send gs now st tg m p true timeout) in
  (exists c, calls st1 = (calls st ++ [c])%list /\
             c_timer c = timeout_enabled (effective_timeout timeout)) /\
  (timeout_enabled (effective_timeout timeout) = true <->
     match timeout with
     | None | Some (NFin 0) | Some NNaN => True
     | Some (NFin z) => (0 < z)%Z
     | Some NInf | Some NNegInf => False
     end) /\
  (timeout_enabled (effective_timeout timeout) = false ->
   forall st', steps gs st1 st' -> timer_fire (length (calls st)) st' = st').
Proof.
  intros Hg st1.
  assert (Hc : exists c, calls st1 = (calls st ++ [c])%list /\
                         c_timer c = timeout_enabled (effective_timeout timeout)).
  { subst st1. unfold send. cbn [negb].
    destruct (getId (uid st) now) as [u s'] eqn:Hid. rewrite Hg. cbv beta iota zeta. cbn [fst].
    rewrite (proj1 (scheduleRequest_keeps _ _ _ _)). simpl. eauto. }
  split; [exact Hc|]. split.
  - unfold effective_timeout, timeout_enabled, DEFAULT_TIMEOUT_MS.
    destruct timeout as [[z| | |]|]; simpl; try (split; intros; easy).
    destruct z; simpl; split; intros; easy.
  - intros Hoff st' Hs. destruct Hc as (c & Hc & Ht). rewrite Hoff in Ht.
    assert (Hk : calls st1 !! length (calls st) = Some c).
    { rewrite Hc, lookup_app_r by lia. rewrite Nat.sub_diag. reflexivity. }
    destruct (timer_stays_off gs st1 st' _ c Hs Hk Ht) as (c' & H1 & H2).
    unfold timer_fire. rewrite H1, H2. reflexivity.
Qed.

Lemma send_timer_iff_enabled_witness :
  getSender (fun _ => Resolved (mkSendable 1)) (TId 1) = Some (mkSendable 1) /\
  timeout_enabled (effective_timeout (Some NInf)) = false /\
  timer_fire 0 (fst (send (fun _ => Resolved (mkSendable 1)) 0 initial_engine (TId 1) "m" JNull
                       true (Some NInf)))
  = fst (send (fun _ => Resolved (mkSendable 1)) 0 initial_engine (TId 1) "m" JNull
           true (Some NInf)).
Proof.
  split; [reflexivity|]. split; [reflexivity|].
  apply (send_timer_iff_enabled (fun _ => Resolved (mkSendable 1)) 0 initial_engine (TId 1)
           "m" JNull (Some NInf) (mkSendable 1) eq_refl); [reflexivity|].
  apply steps_refl.
Defined.

(** ** The event queue *)

Lemma keys_sq_push (P : Z -> Prop) k e q :
  P k -> Forall (fun b => P (fst b)) q -> Forall (fun b => P (fst b)) (sq_push k e q).
Proof.
  intros Hk Hq. induction q as [|[k' es] q IH]; simpl; [constructor; auto|].
  apply Forall_cons_1 in Hq as [Hh Hq].
  destruct (Z.eqb k k'); [constructor; auto|].
  destruct (_ && _); constructor; auto.
Qed.

Lemma front_insert_before k k' (es : list QueueEntry) (q : list (Z * list QueueEntry)) :
  (is_array_index k && (negb (is_array_index k') || (k <? k')%Z)) = true ->
  Z.eqb k k' = false ->
  Forall (fun b => key_before k' (fst b)) q ->
  Forall (fun b => key_before k (fst b)) ((k', es) :: q).
Proof.
  intros C E Hf. apply andb_true_iff in C as [Ck C]. apply Z.eqb_neq in E.
  assert (Hlt : is_array_index k' = true -> (k < k')%Z).
  { intros Hk'. rewrite Hk' in C. simpl in C. apply Z.ltb_lt. exact C. }
  constructor.
  - split; [exact E|]. intros Hk'. split; [exact Ck | auto].
  - eapply Forall_impl; [exact Hf|]. intros [k2 es2] [Hne H2]. simpl in *.
    split.
    + intros <-. destruct (H2 Ck) as [Hk' Hlt']. specialize (Hlt Hk'). lia.
    + intros Hk2. destruct (H2 Hk2) as [Hk' Hlt']. specialize (Hlt Hk'). split; [exact Ck|lia].
Qed.

Lemma sq_push_qord k e q : qord q -> qord (sq_push k e q).
Proof.
  induction q as [|[k' es] q IH]; simpl; intros Hq; [split; [constructor|exact I]|].
  destruct Hq as [Hf Hr].
  destruct (Z.eqb k k') eqn:E; [simpl; auto|].
  destruct (is_array_index k && (negb (is_array_index k') || (k <? k')%Z)) eqn:C.
  - simpl. split; [|split; assumption].
    exact (front_insert_before k k' es q C E Hf).
  - simpl. split; [|auto].
    apply keys_sq_push; [|exact Hf].
    apply Z.eqb_neq in E. split; [auto|].
    intros Hk. rewrite Hk in C. simpl in C.
    destruct (is_array_index k') eqn:Hk'; simpl in C; [|discriminate].
    apply Z.ltb_ge in C. split; [reflexivity|lia].
Qed.

Lemma sq_push_buckets k e q :
  entry_ok k e -> Forall bucket_ok q -> Forall bucket_ok (sq_push k e q).
Proof.
  intros He Hq. induction q as [|[k' es] q IH]; simpl.
  - constructor; [|constructor]. split; [discriminate|]. constructor; [exact He|constructor].
  - apply Forall_cons_1 in Hq as [[Hne Hh] Hq].
    destruct (Z.eqb k k') eqn:E.
    + apply Z.eqb_eq in E. subst k'. constructor; [|exact Hq]. split; simpl.
      * destruct es; discriminate.
      * apply Forall_app. split; [exact Hh|]. constructor; [exact He|constructor].
    + destruct (_ && _).
      * constructor; [|constructor; [split; assumption|exact Hq]].
        split; [discriminate|]. constructor; [exact He|constructor].
      * constructor; [split; assumption|auto].
Qed.

Lemma q_lookup_absent k (q : list (Z * list QueueEntry)) : Forall (fun b => fst b <> k) q -> q_lookup k q = [].
Proof.
  induction q as [|[k' es] q IH]; simpl; intros H; [reflexivity|].
  apply Forall_cons_1 in H as [Hh H]. simpl in Hh.
  destruct (Z.eqb_spec k k'); [congruence|auto].
Qed.

Lemma q_lookup_sq_push k k' e q :
  qord q -> q_lookup k (sq_push k' e q) = (q_lookup k q ++ (if Z.eqb k k' then [e] else []))%list.
Proof.
  induction q as [|[k2 es] q IH]; simpl; intros Hq; [destruct (Z.eqb k k'); reflexivity|].
  destruct Hq as [Hf Hr].
  destruct (Z.eqb k' k2) eqn:E.
  - apply Z.eqb_eq in E. subst k2. simpl.
    destruct (Z.eqb k k'); [reflexivity|]. rewrite app_nil_r. reflexivity.
  - destruct (is_array_index k' && (negb (is_array_index k2) || (k' <? k2)%Z)) eqn:C.
    + pose proof (front_insert_before k' k2 es q C E Hf) as Hb.
      simpl. destruct (Z.eqb_spec k k') as [->|Hne].
      * rewrite E, q_lookup_absent; [reflexivity|].
        apply Forall_cons_1 in Hb as [_ Hb].
        eapply Forall_impl; [exact Hb|]. intros b [Hb1 _]. auto.
      * rewrite app_nil_r. reflexivity.
    + simpl. destruct (Z.eqb_spec k k2) as [->|Hne].
      * rewrite Z.eqb_sym, E, app_nil_r. reflexivity.
      * apply IH. exact Hr.
Qed.

Lemma emit_queue gs now st t m p :
  emit gs now st t m p =
  match getSender gs t with
  | None => st
  | Some s =>
      set_queueTick (queueTick st + 1)
        (set_scheduleQueue
           (sq_push (sendable_id s) (RPC_SEND_CHANNEL, s, event_payload m p) (scheduleQueue st))
           st)
  end.
Proof. unfold emit, send. cbn [negb]. destruct (getSender gs t); reflexivity. Qed.

Lemma emits_queue gs now st es :
  qinv (scheduleQueue st) ->
  qinv (scheduleQueue (emits gs now st es)) /\ outbox (emits gs now st es) = outbox st /\
  forall d, map entry_payload (q_lookup d (scheduleQueue (emits gs now st es))) =
            (map entry_payload (q_lookup d (scheduleQueue st)) ++ events_for gs d es)%list.
Proof.
  revert st. induction es as [|[[t m] p] es IH]; intros st Hq.
  - simpl. split; [exact Hq|]. split; [reflexivity|]. intros d. rewrite app_nil_r. reflexivity.
  - simpl. rewrite emit_queue. destruct (getSender gs t) as [s|] eqn:Hg.
    + destruct Hq as [Ho Hb].
      destruct (IH (set_queueTick (queueTick st + 1)
           (set_scheduleQueue
              (sq_push (sendable_id s) (RPC_SEND_CHANNEL, s, event_payload m p)
                 (scheduleQueue st)) st))) as (H1 & H2 & H3).
      { split; simpl; [apply sq_push_qord; exact Ho|].
        apply sq_push_buckets; [split; reflexivity|exact Hb]. }
      split; [exact H1|]. split; [exact H2|]. intros d. rewrite H3. simpl.
      rewrite q_lookup_sq_push by exact Ho. rewrite map_app, <- app_assoc.
      rewrite Z.eqb_sym. destruct (Z.eqb (sendable_id s) d); reflexivity.
    + exact (IH st Hq).
Qed.

Lemma beforeSend_outbox s ch p st :
  outbox (beforeSend s ch p st) = (outbox st ++ transmit (sendable_id s) ch p)%list.
Proof.
  unfold beforeSend, transmit. destruct (JSON_stringify p); simpl; [reflexivity|reflexivity|].
  rewrite app_nil_r. reflexivity.
Qed.

Lemma flush_each_outbox q st :
  Forall bucket_ok q ->
  outbox (flush_each q st) =
  (outbox st ++ concat (map (fun b => transmit (fst b) RPC_SEND_CHANNEL (batch_payload (snd b))) q))%list.
Proof.
  revert st. induction q as [|[k es] q IH]; intros st Hq; simpl; [rewrite app_nil_r; reflexivity|].
  apply Forall_cons_1 in Hq as [[Hne Hh] Hq]. simpl in Hne, Hh.
  destruct es as [|[[ch s] p] es']; [congruence|].
  apply Forall_cons_1 in Hh as [[-> Hs] _].
  rewrite IH by exact Hq. rewrite beforeSend_outbox, Hs, app_assoc. reflexivity.
Qed.

Lemma filter_transmit k ch p d :
  filter (fun o : Z * string * option string => Z.eqb (fst (fst o)) d) (transmit k ch p) =
  if Z.eqb k d then transmit k ch p else [].
Proof.
  unfold transmit. destruct (JSON_stringify p); [| |rewrite filter_nil; destruct (Z.eqb k d); reflexivity];
    rewrite filter_cons, filter_nil; simpl; destruct (Z.eqb k d); reflexivity.
Qed.

Lemma filter_flush_absent d (q : list (Z * list QueueEntry)) :
  Forall (fun b => fst b <> d) q ->
  filter (fun o : Z * string * option string => Z.eqb (fst (fst o)) d)
    (concat (map (fun b => transmit (fst b) RPC_SEND_CHANNEL (batch_payload (snd b))) q)) = [].
Proof.
  induction q as [|[k es] q IH]; intros H; [reflexivity|].
  apply Forall_cons_1 in H as [Hh H]. simpl in Hh. simpl.
  rewrite filter_app, filter_transmit, IH by exact H.
  destruct (Z.eqb_spec k d); [congruence|reflexivity].
Qed.

Lemma filter_flush d (q : list (Z * list QueueEntry)) :
  qinv q ->
  filter (fun o : Z * string * option string => Z.eqb (fst (fst o)) d)
    (concat (map (fun b => transmit (fst b) RPC_SEND_CHANNEL (batch_payload (snd b))) q)) =
  match q_lookup d q with
  | [] => []
  | es => transmit d RPC_SEND_CHANNEL (batch_payload es)
  end.
Proof.
  induction q as [|[k es] q IH]; intros [Ho Hb]; [reflexivity|].
  destruct Ho as [Hf Ho]. apply Forall_cons_1 in Hb as [[Hne _] Hb]. simpl in Hne.
  simpl. rewrite filter_app, filter_transmit.
  destruct (Z.eqb_spec k d) as [->|Hkd].
  - rewrite Z.eqb_refl. rewrite filter_flush_absent.
    + rewrite app_nil_r. destruct es; [congruence|reflexivity].
    + eapply Forall_impl; [exact Hf|]. intros b [Hb1 _]. auto.
  - rewrite (proj2 (Z.eqb_neq d k)) by auto. simpl. apply IH. split; assumption.
Qed.

Lemma batch_payload_of es : batch_payload es = batch_of (map entry_payload es).
Proof. destruct es as [|e [|e' es]]; reflexivity. Qed.

(** C4 (counterexample): two events for destination 1 are queued, the
    second carrying a value [JSON.stringify] rejects (a BigInt); the flush
    makes no send at all to destination 1, so the valid first event is lost
    with the other. *)
Lemma flush_unserializable_batch_sends_nothing :
  let st1 := emits (fun _ => Resolved (mkSendable 1)) 0 initial_engine
               [(TId 1, "m", JObj [("x", JNum 1)]); (TId 1, "m", JObj [("x", JBigInt 1)])] in
  length (q_lookup 1 (scheduleQueue st1)) = 2%nat /\ outbox (flushQueue st1) = [].
Proof. vm_compute. split; reflexivity. Qed.

(** C4 (amended): starting from an empty queue, after any sequence of
    [emit] calls the flush adds, for each destination [d], at most one
    transport record: none when no event went to [d]; otherwise one
    [beforeSend] of the single envelope as is, or of the array of the
    envelopes in emit order, which records nothing if it fails to
    serialize.  An envelope that is not an Event bypasses the queue. *)
Theorem flush_one_send_per_destination gs now st es d :
  scheduleQueue st = [] ->
  (exists fresh,
     outbox (flushQueue (emits gs now st es)) = (outbox st ++ fresh)%list /\
     filter (fun o : Z * string * option string => Z.eqb (fst (fst o)) d) fresh =
     match events_for gs d es with
     | [] => []
     | ps => transmit d RPC_SEND_CHANNEL (batch_of ps)
     end) /\
  (forall ch s p st', isEvent p = false -> scheduleRequest ch s p st' = beforeSend s ch p st').
Proof.
  intros Hq. split.
  - destruct (emits_queue gs now st es) as (H1 & H2 & H3).
    { rewrite Hq. split; [exact I|constructor]. }
    eexists. split.
    + unfold flushQueue. rewrite flush_each_outbox by (apply H1).
      change (outbox (set_scheduleQueue [] (set_queueTick 0 (emits gs now st es))))
        with (outbox (emits gs now st es)).
      rewrite H2. reflexivity.
    + rewrite filter_flush by exact H1.
      specialize (H3 d). rewrite Hq in H3. simpl in H3. rewrite <- H3.
      destruct (q_lookup d (scheduleQueue (emits gs now st es))) as [|e r]; [reflexivity|].
      rewrite batch_payload_of. reflexivity.
  - intros ch s p st' He. unfold scheduleRequest. rewrite He. reflexivity.
Qed.

Lemma flush_one_send_per_destination_witness :
  scheduleQueue initial_engine = [] /\
  exists fresh,
    outbox (flushQueue (emits (fun _ => Resolved (mkSendable 1)) 0 initial_engine
                          [(TId 1, "m", JNum 1); (TId 1, "m", JNum 2)]))
    = (outbox initial_engine ++ fresh)%list /\
    filter (fun o : Z * string * option string => Z.eqb (fst (fst o)) 1) fresh =
    match events_for (fun _ => Resolved (mkSendable 1)) 1
            [(TId 1, "m", JNum 1); (TId 1, "m", JNum 2)] with
    | [] => []
    | ps => transmit 1 RPC_SEND_CHANNEL (batch_of ps)
    end.
Proof.
  split; [reflexivity|].
  exact (proj1 (flush_one_send_per_destination (fun _ => Resolved (mkSendable 1)) 0
                  initial_engine [(TId 1, "m", JNum 1); (TId 1, "m", JNum 2)] 1 eq_refl)).
Defined.

(* ================================================================== *)
(** * Further properties of the engine *)

(** ** Target comparison *)

(** [isTargetEqual] is symmetric; a target equals itself exactly when it
    resolves to a sendable; a released target is equal to nothing (no
    target, no other target, not even itself), in either argument. *)
Lemma isTargetEqual_sym_refl gs :
  (forall a b, isTargetEqual gs a b = isTargetEqual gs b a) /\
  (forall t, isTargetEqual gs (Some t) (Some t) = true <-> getSender gs t <> None) /\
  (forall t b, getSender gs t = None ->
     isTargetEqual gs (Some t) b = false /\ isTargetEqual gs b (Some t) = false).
Proof.
  split; [|split].
  - intros a b. destruct a as [a|], b as [b|]; simpl; try reflexivity.
    destruct (getSender gs a), (getSender gs b); try reflexivity. apply Z.eqb_sym.
  - intros t. simpl. destruct (getSender gs t); split; intros H; try congruence.
    apply Z.eqb_refl.
  - intros t b Ht. destruct b as [b|]; simpl; rewrite ?Ht; [|split; reflexivity].
    destruct (getSender gs b); split; reflexivity.
Qed.

Lemma isTargetEqual_self gs t :
  match t with None => True | Some tv => getSender gs tv <> None end ->
  isTargetEqual gs t t = true.
Proof.
  destruct t as [tv|]; intros H; [|reflexivity]. simpl.
  destruct (getSender gs tv); [apply Z.eqb_refl|congruence].
Qed.

(** ** Disposers: [on] then [off], [registerHandler] then [unregisterHandler] *)

Lemma js_lookup_Absent {A} (m : gmap string A) k : js_lookup m k = Absent -> m !! k = None.
Proof.
  unfold js_lookup. destruct (m !! k); [discriminate|]. reflexivity.
Qed.

Lemma existsb_false_In {A} (p : A -> bool) l x : existsb p l = false -> In x l -> p x = false.
Proof.
  induction l as [|y l IH]; simpl; [tauto|].
  intros H [<-|Hin]; apply orb_false_iff in H as [H1 H2]; auto.
Qed.

Lemma findIndex_app_last {A} (p : A -> bool) l e :
  (forall x, In x l -> p x = false) -> p e = true ->
  findIndex p (l ++ [e])%list = Some (length l).
Proof.
  intros Hl He. induction l as [|x l IH]; simpl; [rewrite He; reflexivity|].
  rewrite (Hl x (or_introl eq_refl)), IH by (intros y Hy; apply Hl; right; exact Hy).
  reflexivity.
Qed.

Lemma splice1_app_last {A} (l : list A) e : splice1 (length l) (l ++ [e])%list = l.
Proof. induction l as [|x l IH]; simpl; [reflexivity|]. now rewrite IH. Qed.

(** The disposer of [on(method, callback, target)] called right away
    returns [true] and restores the listener list (an absent list becomes
    an empty one), provided no equal listener was registered before and the
    target, if any, resolves. *)
Theorem on_off_roundtrip gs st m cb t st1 :
  match t with None => True | Some tv => getSender gs tv <> None end ->
  (forall l e, listeners st !! m = Some l -> In e l -> l_callback e = cb ->
               isTargetEqual gs (l_target e) t = false) ->
  on st m cb t = Ret st1 ->
  off gs st1 m cb t =
  Ret (set_listeners (<[m := default [] (listeners st !! m)]> (listeners st)) st, true).
Proof.
  intros Ht Hno Hon. pose proof (isTargetEqual_self gs t Ht) as Hself.
  unfold on in Hon. destruct (js_lookup (listeners st) m) as [l| |] eqn:Hl; [|discriminate|].
  - apply js_lookup_Own in Hl. injection Hon as <-.
    unfold off, js_lookup. simpl. rewrite lookup_insert_eq.
    rewrite findIndex_app_last.
    + rewrite splice1_app_last, insert_insert_eq, Hl. reflexivity.
    + intros x Hx. destruct (N.eqb_spec (l_callback x) cb) as [Hc|]; [|reflexivity].
      simpl. exact (Hno l x Hl Hx Hc).
    + simpl. rewrite N.eqb_refl. exact Hself.
  - apply js_lookup_Absent in Hl. injection Hon as <-.
    unfold off, js_lookup. simpl. rewrite lookup_insert_eq. simpl.
    rewrite N.eqb_refl, Hself. simpl. rewrite insert_insert_eq, Hl. reflexivity.
Qed.

Lemma on_off_roundtrip_witness :
  getSender id_resolver (TId 1) <> None /\
  (forall l e,
     listeners (set_listeners (<["m" := [mkListenerEntry (Some (TId 2)) 7]]> ∅) initial_engine)
       !! "m" = Some l -> In e l -> l_callback e = 7%N ->
     isTargetEqual id_resolver (l_target e) (Some (TId 1)) = false) /\
  exists st1,
    on (set_listeners (<["m" := [mkListenerEntry (Some (TId 2)) 7]]> ∅) initial_engine)
      "m" 7 (Some (TId 1)) = Ret st1 /\
    off id_resolver st1 "m" 7 (Some (TId 1)) =
    Ret (set_listeners
           (<["m" := default []
                (listeners (set_listeners (<["m" := [mkListenerEntry (Some (TId 2)) 7]]> ∅)
                              initial_engine) !! "m")]>
              (listeners (set_listeners (<["m" := [mkListenerEntry (Some (TId 2)) 7]]> ∅)
                            initial_engine)))
           (set_listeners (<["m" := [mkListenerEntry (Some (TId 2)) 7]]> ∅) initial_engine),
         true).
Proof.
  assert (Hno : forall l e,
     listeners (set_listeners (<["m" := [mkListenerEntry (Some (TId 2)) 7]]> ∅) initial_engine)
       !! "m" = Some l -> In e l -> l_callback e = 7%N ->
     isTargetEqual id_resolver (l_target e) (Some (TId 1)) = false).
  { intros l e Hl Hin _. simpl in Hl. rewrite lookup_insert_eq in Hl.
    injection Hl as <-. destruct Hin as [<-|[]]. reflexivity. }
  split; [discriminate|]. split; [exact Hno|].
  eexists. split; [reflexivity|].
  apply (on_off_roundtrip id_resolver _ "m" 7 (Some (TId 1))); [discriminate|exact Hno|].
  reflexivity.
Defined.

Lemma isTargetEqual_comm gs a b : isTargetEqual gs a b = isTargetEqual gs b a.
Proof.
  destruct a as [a|], b as [b|]; simpl; try reflexivity.
  destruct (getSender gs a), (getSender gs b); try reflexivity. apply Z.eqb_sym.
Qed.

(** The disposer of a successful [registerHandler(method, handler, target)]
    called right away returns [true] and restores the handler list (an
    absent list becomes an empty one), when there is no target or a truthy
    one that resolves. *)
Theorem register_unregister_roundtrip gs st m h t st1 :
  match t with None => True | Some tv => target_truthy tv = true /\ getSender gs tv <> None end ->
  registerHandler gs st m h t = Ret st1 ->
  unregisterHandler gs st1 m t =
  Ret (set_handlers (<[m := default [] (handlers st !! m)]> (handlers st)) st, true).
Proof.
  intros Ht Hreg.
  assert (Hself : isTargetEqual gs t t = true).
  { destruct t as [tv|]; [|reflexivity]. simpl. destruct Ht as [_ Hr].
    destruct (getSender gs tv); [apply Z.eqb_refl|congruence]. }
  assert (Hold : forall l, js_lookup (handlers st) m = Own l ->
                 registerHandler gs st m h t = Ret st1 ->
                 forall x, In x l -> isTargetEqual gs (h_target x) t = false).
  { intros l Hl H x Hx. unfold registerHandler in H. rewrite Hl in H.
    destruct t as [tv|].
    - destruct Ht as [Htr _]. cbn [exn_bind] in H. rewrite Htr in H.
      destruct (existsb _ l) eqn:He; [discriminate|].
      rewrite isTargetEqual_comm. exact (existsb_false_In _ _ _ He Hx).
    - destruct (existsb _ l) eqn:He; [discriminate|].
      pose proof (existsb_false_In _ _ _ He Hx) as Hg. simpl in Hg.
      destruct (h_target x); [reflexivity|discriminate]. }
  destruct (js_lookup (handlers st) m) as [l| |] eqn:Hl.
  - pose proof (Hold l eq_refl Hreg) as Hno.
    assert (st1 = set_handlers (<[m := (l ++ [mkHandlerEntry t h])%list]> (handlers st)) st)
      as ->.
    { unfold registerHandler in Hreg. rewrite Hl in Hreg.
      destruct t as [tv|].
      - destruct Ht as [Htr _]. cbn [exn_bind] in Hreg. rewrite Htr in Hreg.
        destruct (existsb _ l); [discriminate|]. injection Hreg as <-. reflexivity.
      - destruct (existsb _ l); [discriminate|]. injection Hreg as <-. reflexivity. }
    apply js_lookup_Own in Hl.
    unfold unregisterHandler, js_lookup. simpl. rewrite lookup_insert_eq.
    rewrite findIndex_app_last by assumption.
    rewrite splice1_app_last, insert_insert_eq, Hl. reflexivity.
  - unfold registerHandler in Hreg. rewrite Hl in Hreg.
    destruct t as [tv|].
    + destruct Ht as [Htr _]. cbn [exn_bind] in Hreg. rewrite Htr in Hreg. discriminate.
    + discriminate.
  - assert (st1 = set_handlers (<[m := [mkHandlerEntry t h]]> (handlers st)) st) as ->.
    { unfold registerHandler in Hreg. rewrite Hl in Hreg.
      destruct t as [tv|].
      - destruct Ht as [Htr _]. cbn [exn_bind] in Hreg. rewrite Htr in Hreg.
        injection Hreg as <-. reflexivity.
      - injection Hreg as <-. reflexivity. }
    apply js_lookup_Absent in Hl.
    unfold unregisterHandler, js_lookup. simpl. rewrite lookup_insert_eq. simpl.
    rewrite Hself. simpl. rewrite insert_insert_eq, Hl. reflexivity.
Qed.

Lemma register_unregister_roundtrip_witness :
  registerHandler (fun _ => Resolved (mkSendable 4)) initial_engine "m" 9 (Some (TId 4))
  = Ret (set_handlers (<["m" := [mkHandlerEntry (Some (TId 4)) 9]]> ∅) initial_engine) /\
  unregisterHandler (fun _ => Resolved (mkSendable 4))
    (set_handlers (<["m" := [mkHandlerEntry (Some (TId 4)) 9]]> ∅) initial_engine) "m"
    (Some (TId 4))
  = Ret (set_handlers (<["m" := []]> ∅) initial_engine, true).
Proof.
  split; [reflexivity|].
  apply (register_unregister_roundtrip (fun _ => Resolved (mkSendable 4)) initial_engine "m" 9
           (Some (TId 4))); [split; [reflexivity|discriminate]|reflexivity].
Defined.

(** ** [removeAllListener] *)

Lemma filter_length_same {A} (p : A -> bool) (l : list A) :
  length (filter p l) = length l -> filter p l = l.
Proof.
  induction l as [|x l IH]; intros H; [reflexivity|].
  assert (Hle : (length (filter p l) <= length l)%nat).
  { clear. induction l as [|y l IH]; [simpl; lia|].
    destruct (p y) eqn:Hy.
    - rewrite filter_cons_True by (rewrite Hy; exact I). simpl. lia.
    - rewrite filter_cons_False by (rewrite Hy; auto). simpl. lia. }
  destruct (p x) eqn:Hx.
  - rewrite filter_cons_True in * by (rewrite Hx; exact I). simpl in H.
    rewrite IH by lia. reflexivity.
  - rewrite filter_cons_False in H by (rewrite Hx; auto). simpl in H. lia.
Qed.

(** [removeAllListener(target)] with a target keeps, under every method,
    exactly the listeners whose target is not equal to it, in their order:
    the length comparison before the write-back never changes the result.
    Without a target it removes every listener. *)
Theorem removeAllListener_filters gs st :
  removeAllListener gs st None = set_listeners ∅ st /\
  forall tv,
    removeAllListener gs st (Some tv) =
    set_listeners (filter (fun e => negb (isTargetEqual gs (Some tv) (l_target e))) <$>
                   listeners st) st.
Proof.
  split; [reflexivity|]. intros tv. unfold removeAllListener. f_equal.
  apply map_fmap_ext. intros m l _. cbv zeta.
  destruct (Nat.eqb_spec (length l) (length (filter (fun e => negb (isTargetEqual gs (Some tv) (l_target e))) l))) as [He|];
    [|reflexivity].
  symmetry. apply filter_length_same. symmetry. exact He.
Qed.

(** ** Handler selection ([getHandlerFor]) *)

Lemma pick_handler_skip gs sender l r acc :
  (forall j, In j l -> no_match_for gs sender j) ->
  exists acc', pick_handler gs sender (l ++ r)%list acc = pick_handler gs sender r acc'.
Proof.
  revert acc. induction l as [|j l IH]; intros acc Hl; [exists acc; reflexivity|].
  simpl. destruct (h_target j) eqn:Hj.
  - destruct (Hl j (or_introl eq_refl)) as [Hn|Hf]; [congruence|].
    rewrite <- Hj, Hf. apply IH. intros x Hx. apply Hl. right. exact Hx.
  - apply IH. intros x Hx. apply Hl. right. exact Hx.
Qed.

Lemma pick_handler_keep gs sender l acc :
  (forall j, In j l -> h_target j <> None /\ isSenderMatchTarget gs sender (h_target j) = false) ->
  pick_handler gs sender l acc = acc.
Proof.
  induction l as [|j l IH]; intros Hl; [reflexivity|]. simpl.
  destruct (Hl j (or_introl eq_refl)) as [Hn Hf].
  destruct (h_target j) eqn:Hj; [|congruence].
  rewrite Hf. apply IH. intros x Hx. apply Hl. right. exact Hx.
Qed.

(** For a Request from [sender], the first entry in registration order
    whose target resolves to the sender is chosen, whatever global entry
    comes before it. *)
Theorem getHandlerFor_scoped_first gs st m sender l1 i l2 :
  handlers st !! m = Some (l1 ++ i :: l2)%list ->
  h_target i <> None -> isSenderMatchTarget gs sender (h_target i) = true ->
  (forall j, In j l1 -> no_match_for gs sender j) ->
  getHandlerFor gs st m sender = Ret (Some i).
Proof.
  intros Hh Hi Hm Hl1. unfold getHandlerFor, js_lookup. rewrite Hh. f_equal.
  destruct (pick_handler_skip gs sender l1 (i :: l2) None Hl1) as [acc ->].
  simpl. destruct (h_target i) eqn:Ht; [|congruence]. rewrite Hm. reflexivity.
Qed.

Lemma getHandlerFor_scoped_first_witness :
  handlers (set_handlers (<["m" := [mkHandlerEntry None 1; mkHandlerEntry (Some (TId 2)) 2]]> ∅)
              initial_engine) !! "m"
  = Some ([mkHandlerEntry None 1] ++ mkHandlerEntry (Some (TId 2)) 2 :: [])%list /\
  getHandlerFor (fun _ => Resolved (mkSendable 2))
    (set_handlers (<["m" := [mkHandlerEntry None 1; mkHandlerEntry (Some (TId 2)) 2]]> ∅)
       initial_engine) "m" (mkSendable 2)
  = Ret (Some (mkHandlerEntry (Some (TId 2)) 2)).
Proof.
  split; [reflexivity|].
  apply (getHandlerFor_scoped_first (fun _ => Resolved (mkSendable 2)) _ "m" (mkSendable 2)
           [mkHandlerEntry None 1] (mkHandlerEntry (Some (TId 2)) 2) []);
    [reflexivity|discriminate|reflexivity|].
  intros j [<-|[]]. left. reflexivity.
Defined.

(** When no entry's target resolves to the sender, the last global entry
    (the one registered without a target) is chosen. *)
Theorem getHandlerFor_global_fallback gs st m sender l1 g l2 :
  handlers st !! m = Some (l1 ++ g :: l2)%list -> h_target g = None ->
  (forall j, In j l1 -> no_match_for gs sender j) ->
  (forall j, In j l2 -> h_target j <> None /\ isSenderMatchTarget gs sender (h_target j) = false) ->
  getHandlerFor gs st m sender = Ret (Some g).
Proof.
  intros Hh Hg Hl1 Hl2. unfold getHandlerFor, js_lookup. rewrite Hh. f_equal.
  destruct (pick_handler_skip gs sender l1 (g :: l2) None Hl1) as [acc ->].
  simpl. rewrite Hg. apply pick_handler_keep. exact Hl2.
Qed.

Lemma getHandlerFor_global_fallback_witness :
  handlers (set_handlers (<["m" := [mkHandlerEntry None 1; mkHandlerEntry (Some (TId 2)) 2]]> ∅)
              initial_engine) !! "m"
  = Some ([] ++ mkHandlerEntry None 1 :: [mkHandlerEntry (Some (TId 2)) 2])%list /\
  getHandlerFor (fun t => match t with TId 2 => Resolved (mkSendable 2)
                                     | _ => Resolved (mkSendable 3) end)
    (set_handlers (<["m" := [mkHandlerEntry None 1; mkHandlerEntry (Some (TId 2)) 2]]> ∅)
       initial_engine) "m" (mkSendable 3)
  = Ret (Some (mkHandlerEntry None 1)).
Proof.
  split; [reflexivity|].
  apply (getHandlerFor_global_fallback
           (fun t => match t with TId 2 => Resolved (mkSendable 2) | _ => Resolved (mkSendable 3) end)
           _ "m" (mkSendable 3) [] (mkHandlerEntry None 1) [mkHandlerEntry (Some (TId 2)) 2]);
    [reflexivity|reflexivity|intros j []|].
  intros j [<-|[]]. split; [discriminate|reflexivity].
Defined.

(** A Request whose method has entries, none global and none whose target
    resolves to the sender, is answered with [NotFound] echoing its id. *)
Theorem request_no_match_not_found gs (fx : Effects) sender m id p st l :
  is_nullish id = false -> handlers st !! m = Some l ->
  (forall j, In j l -> h_target j <> None /\ isSenderMatchTarget gs sender (h_target j) = false) ->
  handleRPCRequest gs fx sender (request_envelope m id p) st =
  (beforeSend sender RPC_RECEIVE_CHANNEL (not_found_response id m) st, [], None).
Proof.
  intros Hid Hh Hl. unfold handleRPCRequest, handle_single, request_envelope. simpl.
  rewrite Hid. unfold getHandlerFor, js_lookup. rewrite Hh, pick_handler_keep by exact Hl.
  reflexivity.
Qed.

Lemma request_no_match_not_found_witness :
  handleRPCRequest (fun _ => Resolved (mkSendable 2)) (fun _ _ _ st => st) (mkSendable 3)
    (request_envelope "m" (JStr "1") JNull)
    (set_handlers (<["m" := [mkHandlerEntry (Some (TId 2)) 2]]> ∅) initial_engine)
  = (beforeSend (mkSendable 3) RPC_RECEIVE_CHANNEL (not_found_response (JStr "1") "m")
       (set_handlers (<["m" := [mkHandlerEntry (Some (TId 2)) 2]]> ∅) initial_engine), [], None).
Proof.
  apply (request_no_match_not_found (fun _ => Resolved (mkSendable 2)) (fun _ _ _ st => st)
           (mkSendable 3) "m" (JStr "1") JNull _ [mkHandlerEntry (Some (TId 2)) 2]);
    [reflexivity|reflexivity|].
  intros j [<-|[]]. split; [discriminate|reflexivity].
Defined.

(** ** Pending calls over a run *)

Lemma one_call_reachable : reachable live_resolver one_call_state.
Proof.
  eapply reach_step; [apply reach_init|]. apply step_send.
Qed.

Lemma callback_at_most_once_witness :
  reachable live_resolver one_call_state /\
  calls one_call_state !! 0%nat = Some (mkCall "10" "m" false true []) /\
  (length (c_outcomes (mkCall "10" "m" false true [])) <= 1)%nat.
Proof.
  split; [apply one_call_reachable|]. split; [reflexivity|].
  apply (callback_at_most_once live_resolver one_call_state 0); [apply one_call_reachable|].
  reflexivity.
Defined.

Lemma response_settles_witness :
  exists st',
  handleRPCResponse one_call_state
    (JObj [("jsonrpc", JStr "2.0"); ("id", JStr "10"); ("result", JNum 5)]) = Ret st' /\
  responder st' !! "10" = None /\
  exists c, calls st' !! 0%nat = Some c /\ c_resolved c = true /\
            c_timer c = false /\ length (c_outcomes c) = 1%nat.
Proof.
  eexists. split; [reflexivity|].
  exact (response_settles live_resolver one_call_state
           (JObj [("jsonrpc", JStr "2.0"); ("id", JStr "10"); ("result", JNum 5)])
           (JStr "10") (mkResponder 0 "m" JNull) _ one_call_reachable eq_refl eq_refl eq_refl).
Defined.

Lemma timer_settles_witness :
  responder (timer_fire 0 one_call_state) !! "10" = None /\
  exists c', calls (timer_fire 0 one_call_state) !! 0%nat = Some c' /\ c_resolved c' = true /\
             c_timer c' = false /\
             exists err, c_outcomes c' = [OError err] /\
                         e_code err = JNum (error_code_num Timeout).
Proof.
  exact (timer_settles live_resolver one_call_state 0 (mkCall "10" "m" false true [])
           one_call_reachable eq_refl eq_refl).
Defined.

Lemma unknown_response_dropped_witness :
  handleRPCResponse one_call_state
    (JObj [("jsonrpc", JStr "2.0"); ("id", JStr "11"); ("result", JNum 5)])
  = Ret (log ("[JSONRPC] responder for " ++ "11" ++ " not found") one_call_state).
Proof.
  apply (unknown_response_dropped one_call_state _ (JStr "11")); reflexivity.
Defined.

Lemma digit_not_proto s :
  starts_with_digit s = true -> existsb (String.eqb s) object_prototype_keys = false.
Proof.
  intros Hs. apply not_true_iff_false. intros He.
  apply existsb_exists in He as (p & Hin & Hp). apply String.eqb_eq in Hp. subst p.
  unfold object_prototype_keys in Hin.
  repeat (destruct Hin as [<-|Hin]; [cbv in Hs; discriminate Hs|]). destruct Hin.
Qed.

Lemma ids_numeric_invoke k o st : ids_numeric st -> ids_numeric (invoke_responder k o st).
Proof.
  unfold invoke_responder. intros H. destruct (calls st !! k) as [c|] eqn:Hc; [|exact H].
  destruct (c_resolved c); [exact H|].
  intros k' c' Hk. simpl in Hk. apply list_lookup_insert_Some in Hk as [(_ & <- & _)|[_ Hk]].
  - exact (H _ _ Hc).
  - exact (H _ _ Hk).
Qed.

Lemma ids_numeric_step gs st st' : ids_numeric st -> step gs st st' -> ids_numeric st'.
Proof.
  intros Hk Hs. destruct Hs as [now st tg m p cb timeout|st res st' H|st res e _|st k|st].
  - unfold send. destruct cb; cbn [negb].
    + destruct (getId (uid st) now) as [u s] eqn:Hg.
      destruct (getSender gs tg) as [snd|]; cbv beta iota zeta; cbn [fst].
      * intros k c. rewrite (proj1 (scheduleRequest_keeps _ _ _ _)). simpl.
        intros Hc. apply lookup_app_Some in Hc as [Hc|[_ Hc]]; [exact (Hk _ _ Hc)|].
        apply list_lookup_singleton_Some in Hc as [_ <-]. exact (getId_starts _ _ _ _ Hg).
      * intros k c. simpl.
        intros Hc. apply lookup_app_Some in Hc as [Hc|[_ Hc]]; [exact (Hk _ _ Hc)|].
        apply list_lookup_singleton_Some in Hc as [_ <-]. exact (getId_starts _ _ _ _ Hg).
    + destruct (getSender gs tg) as [snd|]; [|exact Hk]. cbv beta iota zeta. cbn [fst].
      intros k c. rewrite (proj1 (scheduleRequest_keeps _ _ _ _)). exact (Hk k c).
  - unfold handleRPCResponse in H.
    apply bind_Ret in H as (id & _ & H).
    destruct (js_lookup (responder st) (to_key id)) as [r| |].
    + apply bind_Ret in H as (b & _ & H).
      apply bind_Ret in H as (o & _ & H). injection H as <-.
      exact (ids_numeric_invoke _ _ _ Hk).
    + apply bind_Ret in H as (_ & _ & H). discriminate.
    + injection H as <-. exact Hk.
  - exact Hk.
  - unfold timer_fire. destruct (calls st !! k) as [c|] eqn:Hc; [|exact Hk].
    destruct (c_timer c); [|exact Hk].
    destruct (c_resolved c); intros k' c' Hk'; simpl in Hk';
      apply list_lookup_insert_Some in Hk' as [(_ & <- & _)|[_ Hk']];
      first [exact (Hk _ _ Hc) | exact (Hk _ _ Hk')].
  - intros k c. rewrite (proj1 (flushQueue_keeps st)). exact (Hk k c).
Qed.

Lemma ids_numeric_reachable gs st : reachable gs st -> ids_numeric st.
Proof.
  induction 1 as [|st st' _ IH Hs].
  - intros k c H. simpl in H. rewrite lookup_nil in H. discriminate.
  - eapply ids_numeric_step; eassumption.
Qed.

(** A settled call's record is never touched again. *)
Lemma settled_cell_step gs st st' k c :
  settle_inv st -> calls st !! k = Some c -> c_resolved c = true -> step gs st st' ->
  calls st' !! k = Some c.
Proof.
  intros Hinv Hc Hr Hs. destruct Hs as [now st tg m p cb timeout|st res st' H|st res e _|st k'|st].
  - unfold send. destruct cb; cbn [negb].
    + destruct (getId (uid st) now) as [u s] eqn:Hg.
      destruct (getSender gs tg) as [snd|]; cbv beta iota zeta; cbn [fst].
      * rewrite (proj1 (scheduleRequest_keeps _ _ _ _)). simpl.
        apply lookup_app_Some. left. exact Hc.
      * simpl. apply lookup_app_Some. left. exact Hc.
    + destruct (getSender gs tg) as [snd|]; cbv beta iota zeta; cbn [fst]; [|exact Hc].
      rewrite (proj1 (scheduleRequest_keeps _ _ _ _)). exact Hc.
  - unfold handleRPCResponse in H.
    apply bind_Ret in H as (id & _ & H).
    destruct (js_lookup (responder st) (to_key id)) as [r| |].
    + apply bind_Ret in H as (b & _ & H).
      apply bind_Ret in H as (o & _ & H). injection H as <-.
      cbn [calls set_responder]. unfold invoke_responder.
      destruct (calls st !! rsp_call r) as [c0|] eqn:Hc0; [|exact Hc].
      destruct (c_resolved c0) eqn:Hr0; [exact Hc|]. simpl.
      rewrite list_lookup_insert_ne; [exact Hc|].
      intros Heq. rewrite Heq in Hc0. congruence.
    + apply bind_Ret in H as (_ & _ & H). discriminate.
    + injection H as <-. exact Hc.
  - exact Hc.
  - unfold timer_fire. destruct (calls st !! k') as [c0|] eqn:Hc0; [|exact Hc].
    destruct (c_timer c0) eqn:Ht0; [|exact Hc].
    assert (Hne : k' <> k).
    { intros ->. rewrite Hc in Hc0. injection Hc0 as <-.
      destruct (proj1 Hinv k c Hc) as (_ & _ & Hoff). destruct (Hoff Ht0) as [Hr' _].
      congruence. }
    destruct (c_resolved c0); simpl; rewrite list_lookup_insert_ne by exact Hne; exact Hc.
  - rewrite (proj1 (flushQueue_keeps st)). exact Hc.
Qed.

Lemma settled_cell_steps gs st st' k c :
  reachable gs st -> calls st !! k = Some c -> c_resolved c = true -> steps gs st st' ->
  calls st' !! k = Some c.
Proof.
  intros Hreach Hc Hr Hs. induction Hs as [st|st st1 st2 Hs Hss IH]; [exact Hc|].
  apply IH.
  - eapply reach_step; eassumption.
  - eapply settled_cell_step; [apply (settle_inv_reachable gs st Hreach)|exact Hc|exact Hr|exact Hs].
Qed.

(** The record a response leaves for the call it settles. *)
Lemma response_cell gs st res id r st' :
  reachable gs st -> get_prop res "id" = Ret id -> responder st !! to_key id = Some r ->
  handleRPCResponse st res = Ret st' ->
  exists c', calls st' !! rsp_call r = Some c' /\ c_resolved c' = true /\ c_timer c' = false.
Proof.
  intros Hreach Hid Hr H.
  destruct (settle_inv_reachable gs st Hreach) as [_ Hb].
  destruct (Hb _ _ Hr) as (c & Hc & _ & Hres & _).
  unfold handleRPCResponse in H. rewrite Hid in H. cbn [exn_bind] in H.
  unfold js_lookup in H. rewrite Hr in H.
  apply bind_Ret in H as (b & _ & H). apply bind_Ret in H as (o & _ & H).
  injection H as <-. cbn [calls set_responder]. unfold invoke_responder. rewrite Hc, Hres.
  eexists. split; [simpl; apply list_lookup_insert_eq; eapply lookup_lt_Some; exact Hc|].
  split; reflexivity.
Qed.

(** The record a firing timer leaves for its call. *)
Lemma timer_cell gs st k c :
  reachable gs st -> calls st !! k = Some c -> c_timer c = true ->
  exists c', calls (timer_fire k st) !! k = Some c' /\ c_resolved c' = true /\ c_timer c' = false.
Proof.
  intros Hreach Hc Ht.
  destruct (proj1 (settle_inv_reachable gs st Hreach) k c Hc) as (_ & _ & Hoff).
  destruct (Hoff Ht) as [Hres _].
  unfold timer_fire. rewrite Hc, Ht, Hres.
  eexists. split; [simpl; apply list_lookup_insert_eq; eapply lookup_lt_Some; exact Hc|].
  split; reflexivity.
Qed.

(** Right after a call's timer has fired, a response with the call's id is
    logged and dropped without raising; and in every later run the call's
    record stays as the timer left it: the callback is never invoked
    again. *)
Theorem late_response_after_timeout gs st k c res id :
  reachable gs st -> calls st !! k = Some c -> c_timer c = true ->
  get_prop res "id" = Ret id -> to_key id = c_id c ->
  handleRPCResponse (timer_fire k st) res
  = Ret (log ("[JSONRPC] responder for " ++ c_id c ++ " not found") (timer_fire k st)) /\
  forall st', steps gs (timer_fire k st) st' -> calls st' !! k = calls (timer_fire k st) !! k.
Proof.
  intros Hreach Hc Ht Hid Hkey. split.
  2:{ intros st' Hs. destruct (timer_cell gs st k c Hreach Hc Ht) as (c' & Hc' & Hr' & _).
      rewrite Hc'. eapply settled_cell_steps; [| exact Hc' | exact Hr' | exact Hs].
      eapply reach_step; [exact Hreach|apply step_timer]. }
  destruct (settle_inv_reachable gs st Hreach) as [Ha _].
  destruct (Ha k c Hc) as (_ & _ & Hoff). destruct (Hoff Ht) as [Hres _].
  pose proof (ids_numeric_reachable gs st Hreach k c Hc) as Hn.
  remember (timer_fire k st) as st1 eqn:Est.
  assert (Hd : responder st1 !! c_id c = None).
  { subst st1. unfold timer_fire. rewrite Hc, Ht, Hres. simpl. apply lookup_delete_eq. }
  unfold handleRPCResponse. rewrite Hid. cbn [exn_bind]. rewrite Hkey.
  unfold js_lookup. rewrite Hd, (digit_not_proto _ Hn). reflexivity.
Qed.

Lemma late_response_after_timeout_witness :
  handleRPCResponse (timer_fire 0 one_call_state)
    (JObj [("jsonrpc", JStr "2.0"); ("id", JStr "10"); ("result", JNum 5)])
  = Ret (log ("[JSONRPC] responder for " ++ "10" ++ " not found") (timer_fire 0 one_call_state)) /\
  forall st', steps live_resolver (timer_fire 0 one_call_state) st' ->
    calls st' !! 0%nat = calls (timer_fire 0 one_call_state) !! 0%nat.
Proof.
  exact (late_response_after_timeout live_resolver one_call_state 0 (mkCall "10" "m" false true [])
           (JObj [("jsonrpc", JStr "2.0"); ("id", JStr "10"); ("result", JNum 5)])
           (JStr "10") one_call_reachable eq_refl eq_refl eq_refl eq_refl).
Defined.

(** A response delivered a second time right after the first: the second
    copy finds no entry and is logged and dropped without raising; and in
    every later run the call's record stays as the first copy left it: the
    callback is not invoked a second time. *)
Theorem duplicate_response_dropped gs st res id r st' :
  reachable gs st -> get_prop res "id" = Ret id ->
  responder st !! to_key id = Some r -> handleRPCResponse st res = Ret st' ->
  handleRPCResponse st' res
  = Ret (log ("[JSONRPC] responder for " ++ to_key id ++ " not found") st') /\
  forall st'', steps gs st' st'' -> calls st'' !! rsp_call r = calls st' !! rsp_call r.
Proof.
  intros Hreach Hid Hr H. split.
  2:{ intros st'' Hs. destruct (response_cell gs st res id r st' Hreach Hid Hr H) as (c' & Hc' & Hr' & _).
      rewrite Hc'. eapply settled_cell_steps; [| exact Hc' | exact Hr' | exact Hs].
      eapply reach_step; [exact Hreach|eapply step_response; exact H]. }
  pose proof (keys_numeric_reachable gs st Hreach _ _ Hr) as Hk.
  assert (Hd : responder st' !! to_key id = None).
  { unfold handleRPCResponse in H. rewrite Hid in H. cbn [exn_bind] in H.
    unfold js_lookup in H. rewrite Hr in H.
    apply bind_Ret in H as (b & _ & H). apply bind_Ret in H as (o & _ & H). injection H as <-.
    simpl. apply lookup_delete_eq. }
  unfold handleRPCResponse. rewrite Hid. cbn [exn_bind].
  unfold js_lookup. rewrite Hd, (digit_not_proto _ Hk). reflexivity.
Qed.

Lemma duplicate_response_dropped_witness :
  exists st',
  handleRPCResponse one_call_state
    (JObj [("jsonrpc", JStr "2.0"); ("id", JStr "10"); ("result", JNum 5)]) = Ret st' /\
  handleRPCResponse st' (JObj [("jsonrpc", JStr "2.0"); ("id", JStr "10"); ("result", JNum 5)])
  = Ret (log ("[JSONRPC] responder for " ++ "10" ++ " not found") st') /\
  forall st'', steps live_resolver st' st'' -> calls st'' !! 0%nat = calls st' !! 0%nat.
Proof.
  eexists. split; [reflexivity|].
  exact (duplicate_response_dropped live_resolver one_call_state
           (JObj [("jsonrpc", JStr "2.0"); ("id", JStr "10"); ("result", JNum 5)])
           (JStr "10") (mkResponder 0 "m" JNull) _ one_call_reachable eq_refl eq_refl eq_refl).
Defined.

(** A response for a pending call settles it with what the response
    carries: [result] when there is no [error] member, otherwise the error
    rebuilt by [recoverFromResponse]; the call's entry is removed and its
    timer cleared. *)
Theorem response_delivers gs st res id r :
  reachable gs st -> get_prop res "id" = Ret id -> responder st !! to_key id = Some r ->
  exists c, calls st !! rsp_call r = Some c /\ c_id c = to_key id /\
  (forall v, has_prop res "error" = Ret false -> get_prop res "result" = Ret v ->
     handleRPCResponse st res =
     Ret (set_responder (delete (to_key id) (responder st))
            (set_calls (<[rsp_call r := mkCall (c_id c) (c_method c) true false [OResult v]]>
                          (calls st)) st))) /\
  (forall e err, has_prop res "error" = Ret true -> get_prop res "error" = Ret e ->
     recoverFromResponse e (rsp_name r) (rsp_args r) = Ret err ->
     handleRPCResponse st res =
     Ret (set_responder (delete (to_key id) (responder st))
            (set_calls (<[rsp_call r := mkCall (c_id c) (c_method c) true false [OError err]]>
                          (calls st)) st))).
Proof.
  intros Hreach Hid Hr.
  destruct (settle_inv_reachable gs st Hreach) as [_ Hb].
  destruct (Hb _ _ Hr) as (c & Hc & Hcid & Hres & Hout).
  exists c. split; [exact Hc|]. split; [exact Hcid|]. split.
  - intros v He Hv. unfold handleRPCResponse. rewrite Hid. cbn [exn_bind].
    unfold js_lookup. rewrite Hr. rewrite He. cbn [exn_bind]. rewrite Hv. cbn [exn_bind].
    unfold invoke_responder. rewrite Hc, Hres, Hout. reflexivity.
  - intros e err He He' Herr. unfold handleRPCResponse. rewrite Hid. cbn [exn_bind].
    unfold js_lookup. rewrite Hr. rewrite He. cbn [exn_bind]. rewrite He'. cbn [exn_bind].
    rewrite Herr. cbn [exn_bind].
    unfold invoke_responder. rewrite Hc, Hres, Hout. reflexivity.
Qed.

Lemma response_delivers_witness :
  exists c, calls one_call_state !! 0%nat = Some c /\
  handleRPCResponse one_call_state
    (JObj [("jsonrpc", JStr "2.0"); ("id", JStr "10"); ("result", JNum 5)]) =
  Ret (set_responder (delete "10" (responder one_call_state))
         (set_calls (<[0%nat := mkCall (c_id c) (c_method c) true false [OResult (JNum 5)]]>
                       (calls one_call_state)) one_call_state)).
Proof.
  destruct (response_delivers live_resolver one_call_state
              (JObj [("jsonrpc", JStr "2.0"); ("id", JStr "10"); ("result", JNum 5)])
              (JStr "10") (mkResponder 0 "m" JNull) one_call_reachable eq_refl eq_refl)
    as (c & Hc & _ & Hs & _).
  exists c. split; [exact Hc|]. apply Hs; reflexivity.
Defined.

(** ** Calls go out at once, events wait for the flush *)

Lemma beforeSend_fields s ch p st :
  uid (beforeSend s ch p st) = uid st /\
  scheduleQueue (beforeSend s ch p st) = scheduleQueue st /\
  queueTick (beforeSend s ch p st) = queueTick st.
Proof. unfold beforeSend. destruct (JSON_stringify p); repeat split. Qed.

(** A call to a live target takes the next id, registers its entry and
    cell, and transmits the Request envelope at once; the event queue is
    left alone. *)
Theorem send_call_sends_now gs now st tg m p timeout s u idstr :
  getSender gs tg = Some s -> getId (uid st) now = (u, idstr) ->
  let '(st1, ok) := send gs now st tg m p true timeout in
  ok = true /\ uid st1 = u /\
  calls st1 =
    (calls st ++ [mkCall idstr m false (timeout_enabled (effective_timeout timeout)) []])%list /\
  responder st1 = <[idstr := mkResponder (length (calls st)) m p]> (responder st) /\
  scheduleQueue st1 = scheduleQueue st /\ queueTick st1 = queueTick st /\
  outbox st1 =
    (outbox st ++ transmit (sendable_id s) RPC_SEND_CHANNEL (request_envelope m (JStr idstr) p))%list.
Proof.
  intros Hs Hg. unfold send. cbn [negb]. rewrite Hg, Hs. cbv beta iota zeta.
  unfold scheduleRequest.
  change (JObj [("jsonrpc", JStr "2.0"); ("method", JStr m); ("id", JStr idstr); ("params", p)])
    with (request_envelope m (JStr idstr) p).
  assert (He : isEvent (request_envelope m (JStr idstr) p) = false) by reflexivity.
  rewrite He. split; [reflexivity|].
  rewrite (proj1 (beforeSend_fields _ _ _ _)), (proj1 (proj2 (beforeSend_fields _ _ _ _))),
    (proj2 (proj2 (beforeSend_fields _ _ _ _))), (proj1 (beforeSend_keeps _ _ _ _)),
    (proj2 (beforeSend_keeps _ _ _ _)), beforeSend_outbox.
  repeat split.
Qed.

Lemma send_call_sends_now_witness :
  getSender live_resolver (TId 1) = Some (mkSendable 1) /\ getId 0 0 = (1%N, "10") /\
  let '(st1, ok) := send live_resolver 0 initial_engine (TId 1) "m" JNull true None in
  ok = true /\ uid st1 = 1%N /\
  calls st1 = ([] ++ [mkCall "10" "m" false (timeout_enabled (effective_timeout None)) []])%list /\
  responder st1 = <["10" := mkResponder 0 "m" JNull]> ∅ /\
  scheduleQueue st1 = [] /\ queueTick st1 = 0%N /\
  outbox st1 = ([] ++ transmit 1 RPC_SEND_CHANNEL (request_envelope "m" (JStr "10") JNull))%list.
Proof.
  split; [reflexivity|]. split; [reflexivity|].
  exact (send_call_sends_now live_resolver 0 initial_engine (TId 1) "m" JNull None
           (mkSendable 1) 1 "10" eq_refl eq_refl).
Defined.

(** [emit] transmits nothing and allocates no id: to a live target it
    queues the Event envelope for its destination and bumps [queueTick]; to
    a released target it does nothing. *)
Theorem emit_only_queues gs now st tg m p :
  outbox (emit gs now st tg m p) = outbox st /\ uid (emit gs now st tg m p) = uid st /\
  responder (emit gs now st tg m p) = responder st /\ calls (emit gs now st tg m p) = calls st /\
  match getSender gs tg with
  | None => emit gs now st tg m p = st
  | Some s =>
      scheduleQueue (emit gs now st tg m p) =
        sq_push (sendable_id s) (RPC_SEND_CHANNEL, s, event_payload m p) (scheduleQueue st) /\
      queueTick (emit gs now st tg m p) = (queueTick st + 1)%N
  end.
Proof.
  rewrite emit_queue. destruct (getSender gs tg); repeat split.
Qed.

(** ** The queue counter *)

Lemma queued_count_sq_push k e q : queued_count (sq_push k e q) = (queued_count q + 1)%N.
Proof.
  induction q as [|[k' es] q IH]; simpl; [reflexivity|].
  destruct (Z.eqb k k'); [simpl; rewrite length_app; simpl; lia|].
  destruct (_ && _); simpl; [lia|]. rewrite IH. lia.
Qed.

Lemma scheduleRequest_queue_ok ch s p st :
  ch = RPC_SEND_CHANNEL -> queue_ok st -> queue_ok (scheduleRequest ch s p st).
Proof.
  intros Hch [[Ho Hb] Hn]. unfold scheduleRequest. destruct (isEvent p).
  - split; [split|]; simpl.
    + apply sq_push_qord. exact Ho.
    + apply sq_push_buckets; [split; [exact Hch|reflexivity]|exact Hb].
    + rewrite queued_count_sq_push, Hn. reflexivity.
  - destruct (beforeSend_fields s ch p st) as (_ & H1 & H2).
    unfold queue_ok. rewrite H1, H2. split; [split|]; assumption.
Qed.

Lemma invoke_responder_queue k o st :
  scheduleQueue (invoke_responder k o st) = scheduleQueue st /\
  queueTick (invoke_responder k o st) = queueTick st.
Proof.
  unfold invoke_responder. destruct (calls st !! k); [destruct (c_resolved _)|]; split; reflexivity.
Qed.

Lemma flush_each_queue q st :
  scheduleQueue (flush_each q st) = scheduleQueue st /\ queueTick (flush_each q st) = queueTick st.
Proof.
  revert st. induction q as [|[k es] q IH]; intros st; cbn [flush_each]; [auto|].
  destruct es as [|[[ch s] p] es']; [apply IH|].
  destruct (IH (beforeSend s ch (batch_payload ((ch, s, p) :: es')) st)) as [H1 H2].
  destruct (beforeSend_fields s ch (batch_payload ((ch, s, p) :: es')) st) as (_ & H3 & H4).
  split; etransitivity; eassumption.
Qed.

Lemma queue_ok_step gs st st' : queue_ok st -> step gs st st' -> queue_ok st'.
Proof.
  intros Hq Hs. destruct Hs as [now st tg m p cb timeout|st res st' H|st res e _|st k|st].
  - unfold send. destruct cb; cbn [negb].
    + destruct (getId (uid st) now) as [u s] eqn:Hg.
      destruct (getSender gs tg) as [snd|]; cbv beta iota zeta; cbn [fst];
        [apply scheduleRequest_queue_ok; [reflexivity|]|]; exact Hq.
    + destruct (getSender gs tg) as [snd|]; cbv beta iota zeta; cbn [fst]; [|exact Hq].
      apply scheduleRequest_queue_ok; [reflexivity|exact Hq].
  - unfold handleRPCResponse in H.
    apply bind_Ret in H as (id & _ & H).
    destruct (js_lookup (responder st) (to_key id)) as [r| |].
    + apply bind_Ret in H as (b & _ & H).
      apply bind_Ret in H as (o & _ & H). injection H as <-.
      destruct (invoke_responder_queue (rsp_call r) o st) as [H1 H2].
      unfold queue_ok. simpl. rewrite H1, H2. exact Hq.
    + apply bind_Ret in H as (_ & _ & H). discriminate.
    + injection H as <-. exact Hq.
  - exact Hq.
  - unfold timer_fire. destruct (calls st !! k) as [c|]; [|exact Hq].
    destruct (c_timer c); [|exact Hq]. destruct (c_resolved c); exact Hq.
  - unfold flushQueue.
    destruct (flush_each_queue (scheduleQueue st) (set_scheduleQueue [] (set_queueTick 0 st)))
      as [H1 H2].
    unfold queue_ok. rewrite H1, H2. simpl. split; [split; [exact I|constructor]|reflexivity].
Qed.

(** In every reachable state [queueTick] is the number of queued entries;
    it is [0] exactly when the queue is empty.  Every bucket of the queue is
    non-empty, its keys are visited in [for..in] order, and each entry was
    queued on [RPC_SEND_CHANNEL] for the destination of its bucket. *)
Theorem queue_consistent gs st :
  reachable gs st ->
  qinv (scheduleQueue st) /\ queueTick st = queued_count (scheduleQueue st) /\
  (queueTick st = 0%N <-> scheduleQueue st = []).
Proof.
  intros Hr.
  assert (Hq : queue_ok st).
  { induction Hr as [|st st' _ IH Hs].
    - split; [split; [exact I|constructor]|reflexivity].
    - eapply queue_ok_step; eassumption. }
  destruct Hq as [[Ho Hb] Hn]. split; [split; assumption|]. split; [exact Hn|].
  rewrite Hn. split; [|intros ->; reflexivity].
  destruct (scheduleQueue st) as [|[k es] q]; [reflexivity|].
  apply Forall_cons_1 in Hb as [[Hne _] _]. simpl in Hne. simpl.
  destruct es; [contradiction|]. simpl. lia.
Qed.

Lemma queue_consistent_witness :
  reachable live_resolver (emit live_resolver 0 initial_engine (TId 1) "m" JNull) /\
  qinv (scheduleQueue (emit live_resolver 0 initial_engine (TId 1) "m" JNull)) /\
  queueTick (emit live_resolver 0 initial_engine (TId 1) "m" JNull) =
    queued_count (scheduleQueue (emit live_resolver 0 initial_engine (TId 1) "m" JNull)) /\
  (queueTick (emit live_resolver 0 initial_engine (TId 1) "m" JNull) = 0%N <->
   scheduleQueue (emit live_resolver 0 initial_engine (TId 1) "m" JNull) = []).
Proof.
  assert (Hr : reachable live_resolver (emit live_resolver 0 initial_engine (TId 1) "m" JNull)).
  { eapply reach_step; [apply reach_init|]. apply step_send. }
  split; [exact Hr|]. exact (queue_consistent live_resolver _ Hr).
Defined.

(** ** The answer to a request, read back by the caller *)

(** The response built when a handler settles is read by
    [handleRPCResponse] as intended (on the payload before [JSON]
    transport): a fulfilled handler gives a response without an [error]
    member carrying the request's [id] and the value as [result]; a
    rejection with an [AbstractJSONRPC.Error] gives an [error] member from
    which [recoverFromResponse] rebuilds the same code, data and stack (the
    local one when the thrown stack is falsy), the message prefixed with
    the call's name and arguments. *)
Theorem handler_reply_readback id v e name args args_s :
  JSON_stringify args = SStr args_s ->
  (exists res, handler_response id (Fulfilled v) = Ret res /\
     get_prop res "id" = Ret id /\ has_prop res "error" = Ret false /\
     get_prop res "result" = Ret v) /\
  (exists res err, handler_response id (RejectedRPC e) = Ret res /\
     get_prop res "id" = Ret id /\ has_prop res "error" = Ret true /\
     get_prop res "error" = Ret err /\
     recoverFromResponse err name args =
     Ret (mkJSONRPCError (e_code e) ("[" ++ name ++ "(" ++ args_s ++ ")]: " ++ e_message e)
            (e_data e) (if truthy (e_stack e) then e_stack e else local_stack) (JStr name) args)).
Proof.
  intros Ha. split.
  - eexists. split; [reflexivity|]. repeat split.
  - eexists. exists (JObj [("code", e_code e); ("message", JStr (e_message e));
                            ("data", JObj [("data", e_data e); ("stack", e_stack e)])]).
    split; [reflexivity|]. split; [reflexivity|]. split; [reflexivity|].
    split; [reflexivity|].
    unfold recoverFromResponse. rewrite Ha. simpl.
    destruct (String.eqb (e_message e) "") eqn:E; cbn [negb to_key].
    + apply String.eqb_eq in E. rewrite E. reflexivity.
    + reflexivity.
Qed.

Lemma handler_reply_readback_witness :
  JSON_stringify JNull = SStr "null" /\
  exists res err,
    handler_response (JStr "7") (RejectedRPC (newJSONRPCError (JNum 5) "bad" JNull)) = Ret res /\
    get_prop res "id" = Ret (JStr "7") /\ has_prop res "error" = Ret true /\
    get_prop res "error" = Ret err /\
    recoverFromResponse err "m" JNull =
    Ret (mkJSONRPCError (JNum 5) ("[" ++ "m" ++ "(" ++ "null" ++ ")]: " ++ "bad") JNull
           (if truthy local_stack then local_stack else local_stack) (JStr "m") JNull).
Proof.
  split; [reflexivity|].
  exact (proj2 (handler_reply_readback (JStr "7") JNull (newJSONRPCError (JNum 5) "bad" JNull)
                  "m" JNull "null" eq_refl)).
Defined.

(** A handler rejecting with anything but an [AbstractJSONRPC.Error] (and
    not [null]/[undefined]) gets an error response with code [UnKnown],
    which is handed to [beforeSend].  [beforeSend] drops it when
    [JSON.stringify] rejects it (e.g. a BigInt inside the message or the
    stack): then only the serialisation failure is logged and the caller
    gets no answer.  Read back before transport, the caller's rebuilt
    message ends in the rejection's [message], or else in the rejection
    value itself; the stack is the rejection's [stack] when truthy, else
    the caller's local one; there is no data. *)
Theorem handler_other_rejection sender st id v mv sv name args args_s :
  JSON_stringify args = SStr args_s ->
  get_prop v "message" = Ret mv -> get_prop v "stack" = Ret sv ->
  exists res err, handler_response id (RejectedOther v) = Ret res /\
    reply_request sender id (RejectedOther v) st = beforeSend sender RPC_RECEIVE_CHANNEL res st /\
    (JSON_stringify res = SErr ->
     reply_request sender id (RejectedOther v) st = log "[JSONRPC] failed to serialize payload" st) /\
    get_prop res "error" = Ret err /\
    recoverFromResponse err name args =
    Ret (mkJSONRPCError (JNum (error_code_num UnKnown))
           ("[" ++ name ++ "(" ++ args_s ++ ")]: " ++
            (if truthy mv then to_key mv else if truthy v then to_key v else ""))
           JUndef (if truthy sv then sv else local_stack) (JStr name) args).
Proof.
  intros Ha Hm Hs. eexists.
  exists (JObj [("code", JNum (error_code_num UnKnown));
                ("message", if truthy mv then mv else v); ("data", JObj [("stack", sv)])]).
  assert (Hh : handler_response id (RejectedOther v) =
               Ret (JObj [("id", id); ("jsonrpc", JStr "2.0");
                          ("error", JObj [("code", JNum (error_code_num UnKnown));
                                          ("message", if truthy mv then mv else v);
                                          ("data", JObj [("stack", sv)])])])).
  { unfold handler_response. rewrite Hm, Hs. reflexivity. }
  split; [exact Hh|].
  assert (Hr : reply_request sender id (RejectedOther v) st =
               beforeSend sender RPC_RECEIVE_CHANNEL
                 (JObj [("id", id); ("jsonrpc", JStr "2.0");
                        ("error", JObj [("code", JNum (error_code_num UnKnown));
                                        ("message", if truthy mv then mv else v);
                                        ("data", JObj [("stack", sv)])])]) st).
  { unfold reply_request. rewrite Hh. reflexivity. }
  split; [exact Hr|].
  split; [intros He; rewrite Hr; unfold beforeSend; rewrite He; reflexivity|].
  split; [reflexivity|].
  unfold recoverFromResponse. rewrite Ha. simpl.
  destruct (truthy mv) eqn:Em; simpl; rewrite ?Em; reflexivity.
Qed.

(** A rejection [{message: 1n}]: its response cannot be serialised, so
    only the failure is logged and nothing is sent. *)
Lemma handler_other_rejection_witness :
  JSON_stringify JNull = SStr "null" /\
  exists res,
    handler_response (JStr "7") (RejectedOther (JObj [("message", JBigInt 1)])) = Ret res /\
    JSON_stringify res = SErr /\
    reply_request (mkSendable 1) (JStr "7") (RejectedOther (JObj [("message", JBigInt 1)]))
      initial_engine = log "[JSONRPC] failed to serialize payload" initial_engine.
Proof.
  split; [reflexivity|].
  destruct (handler_other_rejection (mkSendable 1) initial_engine (JStr "7")
              (JObj [("message", JBigInt 1)]) (JBigInt 1) JUndef "m" JNull "null"
              eq_refl eq_refl eq_refl) as (res & err & Hh & _ & Hs & _).
  exists res. simpl in Hh. injection Hh as <-.
  split; [reflexivity|]. split; [reflexivity|]. apply Hs. reflexivity.
Defined.

(** A handler whose promise rejects with [null] or [undefined] gets no
    answer at all: building the error response throws, nothing is sent,
    and the caller waits for its timeout. *)
Theorem handler_nullish_rejection_unanswered sender id v st :
  is_nullish v = true -> reply_request sender id (RejectedOther v) st = st.
Proof. intros Hv. destruct v; try discriminate Hv; reflexivity. Qed.

Lemma handler_nullish_rejection_unanswered_witness :
  reply_request (mkSendable 1) (JStr "7") (RejectedOther JUndef) initial_engine = initial_engine.
Proof. apply (handler_nullish_rejection_unanswered (mkSendable 1) (JStr "7") JUndef); reflexivity.
Defined.

(** ** Registries, continued *)

Lemma registerHandler_conflicts_witness :
  exists msg,
    registerHandler live_resolver
      (set_handlers (<["m" := [mkHandlerEntry None 1]]> ∅) initial_engine) "m" 2 None
    = Thrown (RegisterConflict msg).
Proof.
  pose proof (registerHandler_conflicts live_resolver
                (set_handlers (<["m" := [mkHandlerEntry None 1]]> ∅) initial_engine) "m" 2
                [mkHandlerEntry None 1]) as H.
  refine (proj1 (H _) _); reflexivity.
Defined.

Lemma request_unknown_method_not_found_witness :
  handleRPCRequest live_resolver (fun _ _ _ st => st) (mkSendable 3)
    (request_envelope "m" (JStr "1") JNull) initial_engine
  = (beforeSend (mkSendable 3) RPC_RECEIVE_CHANNEL (not_found_response (JStr "1") "m")
       initial_engine, [], None).
Proof.
  apply (request_unknown_method_not_found live_resolver (fun _ _ _ st => st) (mkSendable 3)
           "m" (JStr "1") JNull initial_engine); reflexivity.
Defined.

(** An Event for a method nobody listens to (and that is not a name of
    [Object.prototype]) is ignored: no listener runs, nothing is sent. *)
Theorem event_without_listeners_ignored gs (fx : Effects) sender m p st :
  listeners st !! m = None -> existsb (String.eqb m) object_prototype_keys = false ->
  handleRPCRequest gs fx sender (event_envelope m p) st = (st, [], None).
Proof.
  intros Hl Hp. unfold handleRPCRequest, handle_single, event_envelope. simpl.
  unfold js_lookup. rewrite Hl, Hp. reflexivity.
Qed.

Lemma event_without_listeners_ignored_witness :
  handleRPCRequest live_resolver (fun _ _ _ st => st) (mkSendable 3)
    (event_envelope "m" JNull) initial_engine = (initial_engine, [], None).
Proof.
  apply (event_without_listeners_ignored live_resolver (fun _ _ _ st => st) (mkSendable 3)
           "m" JNull initial_engine); reflexivity.
Defined.

Lemma handleRPCRequest_cons gs (fx : Effects) sender r rs st :
  handleRPCRequest gs fx sender (JArr (r :: rs)) st =
  match handleRPCRequest gs fx sender r st with
  | (st1, i1, Some e) => (st1, i1, Some e)
  | (st1, i1, None) =>
      let '(st2, i2, e2) := handleRPCRequest gs fx sender (JArr rs) st1 in
      (st2, (i1 ++ i2)%list, e2)
  end.
Proof.
  simpl. destruct (handleRPCRequest gs fx sender r st) as [[st1 i1] [e|]]; reflexivity.
Qed.

(** A batch is handled as its parts in sequence: the second part runs on
    the state the first leaves, unless an element of the first raised,
    which stops the batch there. *)
Theorem handleRPCRequest_batch_app gs (fx : Effects) sender rs1 rs2 st :
  handleRPCRequest gs fx sender (JArr (rs1 ++ rs2)) st =
  match handleRPCRequest gs fx sender (JArr rs1) st with
  | (st1, i1, Some e) => (st1, i1, Some e)
  | (st1, i1, None) =>
      let '(st2, i2, e2) := handleRPCRequest gs fx sender (JArr rs2) st1 in
      (st2, (i1 ++ i2)%list, e2)
  end.
Proof.
  revert st. induction rs1 as [|r rs1 IH]; intros st.
  - cbn [app]. change (handleRPCRequest gs fx sender (JArr []) st) with (st, @nil invocation, @None exn).
    cbv iota beta. destruct (handleRPCRequest gs fx sender (JArr rs2) st) as [[st2 i2] e2].
    reflexivity.
  - cbn [app]. rewrite !handleRPCRequest_cons.
    destruct (handleRPCRequest gs fx sender r st) as [[st1 i1] [e|]]; [reflexivity|].
    cbv iota beta. rewrite IH.
    destruct (handleRPCRequest gs fx sender (JArr rs1) st1) as [[st2 i2] [e2|]]; [reflexivity|].
    cbv iota beta. destruct (handleRPCRequest gs fx sender (JArr rs2) st2) as [[st3 i3] e3].
    rewrite app_assoc. reflexivity.
Qed.

(** ** Timers after a response *)

(** Once a response has settled a call, its timer firing at any later
    time does nothing, whatever has happened in between: the timer was
    cleared. *)
Theorem timer_after_response_noop gs st res id r st' :
  reachable gs st -> get_prop res "id" = Ret id -> responder st !! to_key id = Some r ->
  handleRPCResponse st res = Ret st' ->
  forall st'', steps gs st' st'' -> timer_fire (rsp_call r) st'' = st''.
Proof.
  intros Hreach Hid Hr H st'' Hs.
  destruct (response_cell gs st res id r st' Hreach Hid Hr H) as (c' & Hc' & Hr' & Ht').
  assert (Hk : calls st'' !! rsp_call r = Some c').
  { eapply settled_cell_steps; [| exact Hc' | exact Hr' | exact Hs].
    eapply reach_step; [exact Hreach|eapply step_response; exact H]. }
  unfold timer_fire. rewrite Hk, Ht'. reflexivity.
Qed.

Lemma timer_after_response_noop_witness :
  exists st',
  handleRPCResponse one_call_state
    (JObj [("jsonrpc", JStr "2.0"); ("id", JStr "10"); ("result", JNum 5)]) = Ret st' /\
  forall st'', steps live_resolver st' st'' -> timer_fire 0 st'' = st''.
Proof.
  eexists. split; [reflexivity|].
  exact (timer_after_response_noop live_resolver one_call_state
           (JObj [("jsonrpc", JStr "2.0"); ("id", JStr "10"); ("result", JNum 5)])
           (JStr "10") (mkResponder 0 "m" JNull) _ one_call_reachable eq_refl eq_refl eq_refl).
Defined.
